(** * gemmlowp: the NEON backend of the fixed-point primitive layer

    A shallow embedding of [internal/fixedpoint_neon.h].  A 32-bit lane is
    the integer it denotes in two's complement, an [int32x4_t] is a record
    of four lanes, and every intrinsic is given the per-lane meaning of the
    A64 instruction it maps to (Arm Architecture Reference Manual, the
    operation pseudocode of AND, ORR, EOR, ADD, SUB, NEG, CMEQ, CMGT, CMGE,
    SRHADD, SQRDMULH, SQSHL and SRSHR), the truncation to 32 bits written
    out. *)

From Stdlib Require Import ZArith Lia List Bool.
Import ListNotations.

Local Open Scope Z_scope.

(** ** 32-bit signed lanes *)

Module Int32.

Definition bitwidth : Z := 32.

(** [std::numeric_limits<int32_t>::min()] and [max()]. *)
Definition min : Z := - 2 ^ 31.
Definition max : Z := 2 ^ 31 - 1.

Definition in_range (v : Z) : Prop := min <= v <= max.

Definition in_rangeb (v : Z) : bool := (min <=? v) && (v <=? max).

(** [SInt(v<31:0>)]: keep the low 32 bits of an integer and read them as
    a signed number; this is what storing a result into a lane does. *)
Definition wrap (v : Z) : Z := (v + 2 ^ 31) mod 2 ^ 32 - 2 ^ 31.

(** [SignedSatQ(v, 32)]: clamp an integer into the signed 32-bit range. *)
Definition SignedSat (v : Z) : Z :=
  if v <? min then min else if max <? v then max else v.

(** The 32 bits of a lane, least significant first. *)
Definition bits (v : Z) : list bool :=
  map (fun k => Z.testbit v (Z.of_nat k)) (seq 0 32).

Definition all_ones (v : Z) : bool := forallb (fun b => b) (bits v).
Definition all_zeros (v : Z) : bool := forallb negb (bits v).

(** A well-formed mask lane: every bit set or every bit clear. *)
Definition is_mask (v : Z) : bool := all_ones v || all_zeros v.

End Int32.

(** ** Vector registers *)

Record int32x4_t : Type := mk_int32x4
  { s_lane0 : Z; s_lane1 : Z; s_lane2 : Z; s_lane3 : Z }.

Record uint32x4_t : Type := mk_uint32x4
  { u_lane0 : Z; u_lane1 : Z; u_lane2 : Z; u_lane3 : Z }.

Inductive lane_index : Type := L0 | L1 | L2 | L3.

Definition all_lanes : list lane_index := [L0; L1; L2; L3].

(** Reading one lane of a register out ([vgetq_lane_s32]). *)
Definition lane (i : lane_index) (v : int32x4_t) : Z :=
  match i with
  | L0 => s_lane0 v
  | L1 => s_lane1 v
  | L2 => s_lane2 v
  | L3 => s_lane3 v
  end.

(** The values an [int32x4_t] can hold: four signed 32-bit lanes. *)
Definition wf (v : int32x4_t) : Prop :=
  forall i, Int32.in_range (lane i v).

Definition wfb (v : int32x4_t) : bool :=
  forallb (fun i => Int32.in_rangeb (lane i v)) all_lanes.

(** A mask vector: each lane is a well-formed mask. *)
Definition mask_vector (v : int32x4_t) : Prop :=
  forall i, Int32.is_mask (lane i v) = true.

Definition lanewise1 (f : Z -> Z) (a : int32x4_t) : int32x4_t :=
  mk_int32x4 (f (s_lane0 a)) (f (s_lane1 a)) (f (s_lane2 a)) (f (s_lane3 a)).

Definition lanewise2 (f : Z -> Z -> Z) (a b : int32x4_t) : int32x4_t :=
  mk_int32x4 (f (s_lane0 a) (s_lane0 b)) (f (s_lane1 a) (s_lane1 b))
             (f (s_lane2 a) (s_lane2 b)) (f (s_lane3 a) (s_lane3 b)).

(** A vector comparison sets a lane of its unsigned result to all ones
    where the test holds and to zero where it does not. *)
Definition compare_lanes (test : Z -> Z -> bool) (a b : int32x4_t)
  : uint32x4_t :=
  let m x y := if test x y then Z.ones 32 else 0 in
  mk_uint32x4 (m (s_lane0 a) (s_lane0 b)) (m (s_lane1 a) (s_lane1 b))
              (m (s_lane2 a) (s_lane2 b)) (m (s_lane3 a) (s_lane3 b)).

(** ** The intrinsics of [arm_neon.h] the header uses *)

Module Neon.

Definition vandq_s32 : int32x4_t -> int32x4_t -> int32x4_t :=
  lanewise2 Z.land.

Definition vorrq_s32 : int32x4_t -> int32x4_t -> int32x4_t :=
  lanewise2 Z.lor.

Definition veorq_s32 : int32x4_t -> int32x4_t -> int32x4_t :=
  lanewise2 Z.lxor.

Definition vdupq_n_s32 (x : Z) : int32x4_t := mk_int32x4 x x x x.

(** ADD, SUB and NEG keep the low 32 bits of the exact result. *)
Definition vaddq_s32 : int32x4_t -> int32x4_t -> int32x4_t :=
  lanewise2 (fun x y => Int32.wrap (x + y)).

Definition vsubq_s32 : int32x4_t -> int32x4_t -> int32x4_t :=
  lanewise2 (fun x y => Int32.wrap (x - y)).

Definition vnegq_s32 : int32x4_t -> int32x4_t :=
  lanewise1 (fun x => Int32.wrap (- x)).

(** CMEQ, CMGT, CMGE on signed lanes ([vcltq] and [vcleq] assemble to
    CMGT and CMGE with the operands exchanged). *)
Definition vceqq_s32 : int32x4_t -> int32x4_t -> uint32x4_t :=
  compare_lanes Z.eqb.

Definition vcgtq_s32 : int32x4_t -> int32x4_t -> uint32x4_t :=
  compare_lanes Z.gtb.

Definition vcgeq_s32 : int32x4_t -> int32x4_t -> uint32x4_t :=
  compare_lanes Z.geb.

Definition vcltq_s32 : int32x4_t -> int32x4_t -> uint32x4_t :=
  compare_lanes Z.ltb.

Definition vcleq_s32 : int32x4_t -> int32x4_t -> uint32x4_t :=
  compare_lanes Z.leb.

(** The same 128 bits, each lane read as a signed number. *)
Definition vreinterpretq_s32_u32 (a : uint32x4_t) : int32x4_t :=
  mk_int32x4 (Int32.wrap (u_lane0 a)) (Int32.wrap (u_lane1 a))
             (Int32.wrap (u_lane2 a)) (Int32.wrap (u_lane3 a)).

(** [vst1q_s32(b, a)]: the four lanes stored to [b[0..3]]. *)
Definition vst1q_s32 (a : int32x4_t) : list Z :=
  [s_lane0 a; s_lane1 a; s_lane2 a; s_lane3 a].

(** SRHADD: [(SInt(x) + SInt(y) + 1) >> 1] on unbounded integers, the
    low 32 bits kept. *)
Definition vrhaddq_s32 : int32x4_t -> int32x4_t -> int32x4_t :=
  lanewise2 (fun x y => Int32.wrap (Z.shiftr (x + y + 1) 1)).

(** SQRDMULH: [SignedSatQ((2 * x * y + (1 << 31)) >> 32, 32)]. *)
Definition vqrdmulhq_s32 : int32x4_t -> int32x4_t -> int32x4_t :=
  lanewise2
    (fun x y => Int32.SignedSat (Z.shiftr (2 * x * y + Z.shiftl 1 31) 32)).

(** SQSHL by immediate: [SignedSatQ(SInt(x) << n, 32)].  The count is an
    immediate operand, which the instruction encodes for 0..31; the
    definition is the value of the pseudocode at any count. *)
Definition vqshlq_n_s32 (a : int32x4_t) (n : Z) : int32x4_t :=
  lanewise1 (fun x => Int32.SignedSat (Z.shiftl x n)) a.

(** SRSHR by immediate: [(SInt(x) + (1 << (n - 1))) >> n], the low 32
    bits kept.  The count is an immediate operand, encoded for 1..32. *)
Definition vrshrq_n_s32 (a : int32x4_t) (n : Z) : int32x4_t :=
  lanewise1 (fun x => Int32.wrap (Z.shiftr (x + Z.shiftl 1 (n - 1)) n)) a.

End Neon.

(** ** The specializations of [fixedpoint_neon.h] *)

Module gemmlowp.
Import Neon.

Definition BitAnd (a b : int32x4_t) : int32x4_t := vandq_s32 a b.

Definition BitOr (a b : int32x4_t) : int32x4_t := vorrq_s32 a b.

Definition BitXor (a b : int32x4_t) : int32x4_t := veorq_s32 a b.

Definition BitNot (a : int32x4_t) : int32x4_t :=
  veorq_s32 a (vdupq_n_s32 (-1)).

Definition Add (a b : int32x4_t) : int32x4_t := vaddq_s32 a b.

Definition Sub (a b : int32x4_t) : int32x4_t := vsubq_s32 a b.

Definition Neg (a : int32x4_t) : int32x4_t := vnegq_s32 a.

Definition SelectUsingMask (if_mask then_val else_val : int32x4_t)
  : int32x4_t :=
  BitXor (BitAnd if_mask then_val) (BitAnd (BitNot if_mask) else_val).

Definition MaskIfEqual (a b : int32x4_t) : int32x4_t :=
  vreinterpretq_s32_u32 (vceqq_s32 a b).

Definition MaskIfNotEqual (a b : int32x4_t) : int32x4_t :=
  BitNot (MaskIfEqual a b).

Definition MaskIfZero (a : int32x4_t) : int32x4_t :=
  MaskIfEqual a (vdupq_n_s32 0).

Definition MaskIfNonZero (a : int32x4_t) : int32x4_t :=
  BitNot (MaskIfZero a).

Definition MaskIfGreaterThan (a b : int32x4_t) : int32x4_t :=
  vreinterpretq_s32_u32 (vcgtq_s32 a b).

Definition MaskIfGreaterThanOrEqual (a b : int32x4_t) : int32x4_t :=
  vreinterpretq_s32_u32 (vcgeq_s32 a b).

Definition MaskIfLessThan (a b : int32x4_t) : int32x4_t :=
  vreinterpretq_s32_u32 (vcltq_s32 a b).

Definition MaskIfLessThanOrEqual (a b : int32x4_t) : int32x4_t :=
  vreinterpretq_s32_u32 (vcleq_s32 a b).

(** The conversion of an [int32_t] to [bool] that [&&] and [||] apply. *)
Definition to_bool (x : Z) : bool := negb (x =? 0).

Definition All (a : int32x4_t) : bool :=
  let b := vst1q_s32 a in
  to_bool (nth 0 b 0) && to_bool (nth 1 b 0)
  && to_bool (nth 2 b 0) && to_bool (nth 3 b 0).

Definition Any (a : int32x4_t) : bool :=
  let b := vst1q_s32 a in
  to_bool (nth 0 b 0) || to_bool (nth 1 b 0)
  || to_bool (nth 2 b 0) || to_bool (nth 3 b 0).

Definition RoundingHalfSum (a b : int32x4_t) : int32x4_t :=
  vrhaddq_s32 a b.

Definition SaturatingRoundingDoublingHighMul (a b : int32x4_t)
  : int32x4_t :=
  vqrdmulhq_s32 a b.

(** The two partial specializations of
    [ImplSaturatingRoundingMultiplyByPOT<Exponent, int32x4_t, Sign>]:
    sign [1] and sign [-1] have an [eval]; the header declares nothing
    for any other sign. *)
Definition ImplSaturatingRoundingMultiplyByPOT (Exponent ExponentSign : Z)
  : option (int32x4_t -> int32x4_t) :=
  if ExponentSign =? 1 then Some (fun x => vqshlq_n_s32 x Exponent)
  else if ExponentSign =? -1 then Some (fun x => vrshrq_n_s32 x (- Exponent))
  else None.

(** Modelled from the spec: the primary template, declared in
    fixedpoint.h (not among the sources), picks the specialization by the
    sign of the compile-time exponent: positive, negative or zero. *)
Definition ExponentSign (Exponent : Z) : Z :=
  if 0 <? Exponent then 1 else if Exponent <? 0 then -1 else 0.

(** Modelled from the spec: the entry point [SaturatingRoundingMultiplyByPOT
    <Exponent>(x)] of fixedpoint.h (not among the sources) evaluates the
    specialization selected for [Exponent]; [None] when this header has
    none. *)
Definition SaturatingRoundingMultiplyByPOT (Exponent : Z) (x : int32x4_t)
  : option int32x4_t :=
  option_map (fun eval => eval x)
    (ImplSaturatingRoundingMultiplyByPOT Exponent (ExponentSign Exponent)).

(** [FixedPointRawTypeTraits<int32x4_t>::kLanes]. *)
Definition kLanes : Z := 4.

Definition Dup (x : Z) : int32x4_t := vdupq_n_s32 x.

End gemmlowp.

(** ** The scalar backend, as the specification words it *)

Module Scalar.

(** Modelled from the spec: round to nearest, ties toward positive
    infinity, of the quotient [num / den]: the floor of [num / den + 1/2].
    The scalar backend lives in fixedpoint.h, which is not among the
    sources; every operation of this module follows the contract the
    specification gives it, for one signed 32-bit lane. *)
Definition round_half_up (num den : Z) : Z := (2 * num + den) / (2 * den).

(** Modelled from the spec: clamping at the type's minimum and maximum. *)
Definition clamp (v : Z) : Z := Z.max Int32.min (Z.min Int32.max v).

(** Modelled from the spec: [BitAnd], a standard bitwise operation. *)
Definition BitAnd (a b : Z) : Z := Z.land a b.

(** Modelled from the spec: [BitOr], a standard bitwise operation. *)
Definition BitOr (a b : Z) : Z := Z.lor a b.

(** Modelled from the spec: [BitXor], a standard bitwise operation. *)
Definition BitXor (a b : Z) : Z := Z.lxor a b.

(** Modelled from the spec: [BitNot], a standard bitwise operation. *)
Definition BitNot (a : Z) : Z := Z.lnot a.

(** Modelled from the spec: [Add], plain two's-complement wraparound. *)
Definition Add (a b : Z) : Z := Int32.wrap (a + b).

(** Modelled from the spec: [Sub], plain two's-complement wraparound. *)
Definition Sub (a b : Z) : Z := Int32.wrap (a - b).

(** Modelled from the spec: [Neg], plain two's-complement wraparound. *)
Definition Neg (a : Z) : Z := Int32.wrap (- a).

(** Modelled from the spec: the generic [(mask & then_val) | (~mask &
    else_val)]. *)
Definition SelectUsingMask (if_mask then_val else_val : Z) : Z :=
  Z.lor (Z.land if_mask then_val) (Z.land (Z.lnot if_mask) else_val).

(** Modelled from the spec: the mask a comparison returns, all ones (the
    lane [-1]) for true and all zeros for false. *)
Definition mask_of (b : bool) : Z := if b then -1 else 0.

(** Modelled from the spec: [MaskIfEqual], a signed comparison. *)
Definition MaskIfEqual (a b : Z) : Z := mask_of (a =? b).

(** Modelled from the spec: [MaskIfNotEqual], a signed comparison. *)
Definition MaskIfNotEqual (a b : Z) : Z := mask_of (negb (a =? b)).

(** Modelled from the spec: [MaskIfZero] is [MaskIfEqual] against zero. *)
Definition MaskIfZero (a : Z) : Z := MaskIfEqual a 0.

(** Modelled from the spec: [MaskIfNonZero] is [MaskIfNotEqual] against
    zero. *)
Definition MaskIfNonZero (a : Z) : Z := MaskIfNotEqual a 0.

(** Modelled from the spec: [MaskIfGreaterThan], a signed comparison. *)
Definition MaskIfGreaterThan (a b : Z) : Z := mask_of (b <? a).

(** Modelled from the spec: [MaskIfGreaterThanOrEqual], a signed
    comparison. *)
Definition MaskIfGreaterThanOrEqual (a b : Z) : Z := mask_of (b <=? a).

(** Modelled from the spec: [MaskIfLessThan], a signed comparison. *)
Definition MaskIfLessThan (a b : Z) : Z := mask_of (a <? b).

(** Modelled from the spec: [MaskIfLessThanOrEqual], a signed comparison. *)
Definition MaskIfLessThanOrEqual (a b : Z) : Z := mask_of (a <=? b).

(** Modelled from the spec: [round((a + b) / 2)], ties toward positive
    infinity, on exact integers. *)
Definition RoundingHalfSum (a b : Z) : Z := round_half_up (a + b) 2.

(** Modelled from the spec: [round(2 * a * b / 2^bitwidth)], saturating to
    the maximum when both inputs are the minimum. *)
Definition SaturatingRoundingDoublingHighMul (a b : Z) : Z :=
  if (a =? Int32.min) && (b =? Int32.min) then Int32.max
  else round_half_up (2 * a * b) (2 ^ Int32.bitwidth).

(** Modelled from the spec: multiplication by [2^Exponent]: a saturating
    left shift for a positive exponent, a rounding right shift for a
    negative one, nothing specified at zero. *)
Definition SaturatingRoundingMultiplyByPOT (Exponent : Z) (x : Z)
  : option Z :=
  if 0 <? Exponent then Some (clamp (x * 2 ^ Exponent))
  else if Exponent <? 0 then Some (round_half_up x (2 ^ (- Exponent)))
  else None.

(** Modelled from the spec: broadcasting is the identity on one lane. *)
Definition Dup (x : Z) : Z := x.

End Scalar.

(** ** Notions the properties are stated with *)

(** [r] is the integer nearest to [num / den], the upper one at a tie. *)
Definition nearest_ties_up (num den r : Z) : Prop :=
  2 * r * den - den <= 2 * num < 2 * r * den + den.

(** Every bit of the 32 of a lane is set, respectively clear. *)
Definition all_bits_set (v : Z) : Prop :=
  forall k, 0 <= k < 32 -> Z.testbit v k = true.

Definition all_bits_clear (v : Z) : Prop :=
  forall k, 0 <= k < 32 -> Z.testbit v k = false.

(** Congruence modulo [2^32]. *)
Definition congruent32 (x y : Z) : Prop := (x - y) mod 2 ^ 32 = 0.

(** The left shift by [e] of lane value [v] leaves the 32-bit range, so
    that [vqshlq_n_s32] saturates it. *)
Definition saturates (e v : Z) : bool :=
  negb (Int32.in_rangeb (Z.shiftl v e)).

(** ** Registers the examples are evaluated on *)

Definition v_extremes : int32x4_t := mk_int32x4 Int32.min Int32.max 5 (-7).
Definition v_mixed : int32x4_t := mk_int32x4 Int32.min Int32.max 3 2.
Definition v_mask : int32x4_t := mk_int32x4 (-1) 0 (-1) 0.
Definition v_zero : int32x4_t := mk_int32x4 0 0 0 0.
Definition v_mixed_small : int32x4_t :=
  mk_int32x4 (-7) 5 (- 2 ^ 28) (2 ^ 28 - 1).

(** * Facts about 32-bit lanes *)

Section Int32Facts.

Lemma wrap_in_range (v : Z) : Int32.in_range (Int32.wrap v).
Proof.
  unfold Int32.in_range, Int32.wrap, Int32.min, Int32.max.
  pose proof (Z.mod_pos_bound (v + 2 ^ 31) (2 ^ 32) ltac:(lia)). lia.
Qed.

Lemma wrap_id (v : Z) : Int32.in_range v -> Int32.wrap v = v.
Proof.
  unfold Int32.in_range, Int32.wrap, Int32.min, Int32.max. intros H.
  rewrite Z.mod_small; lia.
Qed.

Lemma wrap_congruent (v : Z) : congruent32 (Int32.wrap v) v.
Proof.
  unfold congruent32, Int32.wrap.
  rewrite (Z.mod_eq (v + 2 ^ 31)) by lia.
  replace (_ - _ - _ - _) with ((- ((v + 2 ^ 31) / 2 ^ 32)) * 2 ^ 32) by lia.
  apply Z.mod_mul. lia.
Qed.

(** A signed 32-bit number is determined by its residue modulo [2^32]. *)
Lemma congruent32_unique (x y : Z) :
  Int32.in_range x -> Int32.in_range y -> congruent32 x y -> x = y.
Proof.
  unfold Int32.in_range, Int32.min, Int32.max, congruent32.
  intros Hx Hy H. apply Z.mod_divide in H; [|lia].
  destruct H as [k Hk]. lia.
Qed.

Lemma SignedSat_in_range (v : Z) : Int32.in_range (Int32.SignedSat v).
Proof.
  unfold Int32.in_range, Int32.SignedSat, Int32.min, Int32.max.
  destruct (Z.ltb_spec v (- 2 ^ 31)); [lia|].
  destruct (Z.ltb_spec (2 ^ 31 - 1) v); lia.
Qed.

Lemma SignedSat_id (v : Z) : Int32.in_range v -> Int32.SignedSat v = v.
Proof.
  unfold Int32.in_range, Int32.SignedSat, Int32.min, Int32.max. intros H.
  destruct (Z.ltb_spec v (- 2 ^ 31)); [lia|].
  destruct (Z.ltb_spec (2 ^ 31 - 1) v); lia.
Qed.

Lemma SignedSat_clamp (v : Z) : Int32.SignedSat v = Scalar.clamp v.
Proof.
  unfold Scalar.clamp, Int32.SignedSat, Int32.min, Int32.max.
  destruct (Z.ltb_spec v (- 2 ^ 31)); [lia|].
  destruct (Z.ltb_spec (2 ^ 31 - 1) v); lia.
Qed.

Lemma in_rangeb_spec (v : Z) : Int32.in_rangeb v = true <-> Int32.in_range v.
Proof.
  unfold Int32.in_rangeb, Int32.in_range.
  rewrite andb_true_iff, !Z.leb_le. tauto.
Qed.

End Int32Facts.

(** * Facts about bits and masks *)

Section BitFacts.

Lemma lxor_all_ones (a : Z) : Z.lxor a (-1) = Z.lnot a.
Proof.
  apply Z.bits_inj'. intros n Hn.
  rewrite Z.lxor_spec, Z.lnot_spec, Z.bits_m1 by assumption.
  destruct (Z.testbit a n); reflexivity.
Qed.

(** The two operands of the select share no set bit, so exclusive or and
    inclusive or of them coincide. *)
Lemma select_operands_disjoint (m t e : Z) :
  Z.land (Z.land m t) (Z.land (Z.lnot m) e) = 0.
Proof.
  apply Z.bits_inj'. intros n Hn.
  rewrite !Z.land_spec, Z.lnot_spec, Z.bits_0 by assumption.
  destruct (Z.testbit m n), (Z.testbit t n), (Z.testbit e n); reflexivity.
Qed.

Lemma lxor_lor_of_disjoint (x y : Z) : Z.land x y = 0 -> Z.lxor x y = Z.lor x y.
Proof.
  intros H. apply Z.bits_inj'. intros n Hn.
  assert (Hb : Z.testbit (Z.land x y) n = false) by (rewrite H; apply Z.bits_0).
  rewrite Z.land_spec in Hb. rewrite Z.lxor_spec, Z.lor_spec.
  destruct (Z.testbit x n), (Z.testbit y n); simpl in *; congruence.
Qed.

Lemma select_xor_is_or (m t e : Z) :
  Z.lxor (Z.land m t) (Z.land (Z.lxor m (-1)) e)
  = Z.lor (Z.land m t) (Z.land (Z.lnot m) e).
Proof.
  rewrite lxor_all_ones.
  apply lxor_lor_of_disjoint, select_operands_disjoint.
Qed.

Lemma forallb_bits (p : bool -> bool) (v : Z) :
  forallb p (Int32.bits v) = true
  <-> forall k, 0 <= k < 32 -> p (Z.testbit v k) = true.
Proof.
  unfold Int32.bits. rewrite forallb_forall. split.
  - intros H k Hk. apply H. apply in_map_iff.
    exists (Z.to_nat k). rewrite Z2Nat.id by lia. split; [reflexivity|].
    apply in_seq. lia.
  - intros H b Hb. apply in_map_iff in Hb. destruct Hb as [k [<- Hk]].
    apply in_seq in Hk. apply H. lia.
Qed.

Lemma all_ones_spec (v : Z) : Int32.all_ones v = true <-> all_bits_set v.
Proof. unfold Int32.all_ones. rewrite forallb_bits. reflexivity. Qed.

Lemma all_zeros_spec (v : Z) : Int32.all_zeros v = true <-> all_bits_clear v.
Proof.
  unfold Int32.all_zeros. rewrite forallb_bits. unfold all_bits_clear.
  split; intros H k Hk; specialize (H k Hk);
    destruct (Z.testbit v k); simpl in *; congruence.
Qed.

Lemma low_bits_mod (v w : Z) :
  (forall k, 0 <= k < 32 -> Z.testbit v k = Z.testbit w k) ->
  v mod 2 ^ 32 = w mod 2 ^ 32.
Proof.
  intros H. apply Z.bits_inj'. intros n Hn.
  destruct (Z_lt_le_dec n 32).
  - rewrite !Z.mod_pow2_bits_low by lia. apply H. lia.
  - rewrite !Z.mod_pow2_bits_high by lia. reflexivity.
Qed.

(** Read as a signed number, the lane with every bit set is [-1]. *)
Lemma all_bits_set_minus_one (v : Z) :
  Int32.in_range v -> (all_bits_set v <-> v = -1).
Proof.
  intros Hr. split.
  - intros H.
    assert (Hm : v mod 2 ^ 32 = (-1) mod 2 ^ 32).
    { apply low_bits_mod. intros k Hk. rewrite H by assumption.
      rewrite Z.bits_m1; [reflexivity | lia]. }
    change ((-1) mod 2 ^ 32) with (2 ^ 32 - 1) in Hm.
    unfold Int32.in_range, Int32.min, Int32.max in Hr.
    rewrite Z.mod_eq in Hm by lia. lia.
  - intros -> k Hk. apply Z.bits_m1. lia.
Qed.

Lemma all_bits_clear_zero (v : Z) :
  Int32.in_range v -> (all_bits_clear v <-> v = 0).
Proof.
  intros Hr. split.
  - intros H.
    assert (Hm : v mod 2 ^ 32 = 0 mod 2 ^ 32).
    { apply low_bits_mod. intros k Hk. rewrite H by assumption.
      rewrite Z.bits_0. reflexivity. }
    change (0 mod 2 ^ 32) with 0 in Hm.
    unfold Int32.in_range, Int32.min, Int32.max in Hr.
    rewrite Z.mod_eq in Hm by lia. lia.
  - intros -> k Hk. apply Z.bits_0.
Qed.

Lemma is_mask_cases (v : Z) :
  Int32.in_range v -> Int32.is_mask v = true -> v = -1 \/ v = 0.
Proof.
  intros Hr H. unfold Int32.is_mask in H. apply orb_true_iff in H.
  destruct H as [H | H].
  - left. apply all_bits_set_minus_one, all_ones_spec; assumption.
  - right. apply all_bits_clear_zero, all_zeros_spec; assumption.
Qed.

(** What the reinterpreted result of a vector comparison holds. *)
Lemma wrap_compare_lane (c : bool) :
  Int32.wrap (if c then Z.ones 32 else 0) = Scalar.mask_of c.
Proof. destruct c; reflexivity. Qed.

Lemma lnot_mask_of (c : bool) :
  Z.lxor (Scalar.mask_of c) (-1) = Scalar.mask_of (negb c).
Proof. destruct c; reflexivity. Qed.

End BitFacts.

(** * The bitwise operations stay within 32 bits *)

Section SignExtension.

Lemma high_bits_clear (v : Z) :
  0 <= v < 2 ^ 31 <-> (forall k, 31 <= k -> Z.testbit v k = false).
Proof.
  split.
  - intros Hv k Hk. rewrite <- (Z.mod_small v (2 ^ 31)) by assumption.
    apply Z.mod_pow2_bits_high. lia.
  - intros H.
    assert (E : v = v mod 2 ^ 31).
    { apply Z.bits_inj'. intros n Hn. destruct (Z_lt_le_dec n 31).
      - rewrite Z.mod_pow2_bits_low by lia. reflexivity.
      - rewrite Z.mod_pow2_bits_high by lia. apply H. assumption. }
    rewrite E. apply Z.mod_pos_bound. lia.
Qed.

(** A signed 32-bit number is an integer whose bits from bit 31 upward
    all repeat the sign bit. *)
Lemma in_range_sign_extended (v : Z) :
  Int32.in_range v <-> (forall k, 31 <= k -> Z.testbit v k = Z.testbit v 31).
Proof.
  unfold Int32.in_range, Int32.min, Int32.max. split.
  - intros Hv k Hk. destruct (Z_lt_le_dec v 0) as [Hneg | Hpos].
    + assert (Hn : 0 <= Z.lnot v < 2 ^ 31) by (unfold Z.lnot; lia).
      pose proof (proj1 (high_bits_clear (Z.lnot v)) Hn) as Hb.
      pose proof (Hb k Hk) as H1. pose proof (Hb 31 ltac:(lia)) as H2.
      rewrite Z.lnot_spec in H1, H2 by lia.
      destruct (Z.testbit v k), (Z.testbit v 31); simpl in *; congruence.
    + assert (Hn : 0 <= v < 2 ^ 31) by lia.
      pose proof (proj1 (high_bits_clear v) Hn) as Hb.
      rewrite (Hb k Hk), (Hb 31) by lia. reflexivity.
  - intros H. destruct (Z.testbit v 31) eqn:E.
    + assert (Hn : 0 <= Z.lnot v < 2 ^ 31).
      { apply high_bits_clear. intros k Hk.
        rewrite Z.lnot_spec, (H k Hk) by lia. reflexivity. }
      unfold Z.lnot in Hn. lia.
    + assert (Hn : 0 <= v < 2 ^ 31).
      { apply high_bits_clear. intros k Hk. apply H. assumption. }
      lia.
Qed.

Lemma in_range_bitwise (f : bool -> bool -> bool) (op : Z -> Z -> Z) :
  (forall x y n, 0 <= n -> Z.testbit (op x y) n
                           = f (Z.testbit x n) (Z.testbit y n)) ->
  forall x y, Int32.in_range x -> Int32.in_range y -> Int32.in_range (op x y).
Proof.
  intros Hop x y Hx Hy. apply in_range_sign_extended. intros k Hk.
  rewrite !Hop by lia.
  rewrite (proj1 (in_range_sign_extended x) Hx k Hk).
  rewrite (proj1 (in_range_sign_extended y) Hy k Hk). reflexivity.
Qed.

Lemma land_in_range (x y : Z) :
  Int32.in_range x -> Int32.in_range y -> Int32.in_range (Z.land x y).
Proof.
  apply (in_range_bitwise andb). intros. apply Z.land_spec.
Qed.

Lemma lor_in_range (x y : Z) :
  Int32.in_range x -> Int32.in_range y -> Int32.in_range (Z.lor x y).
Proof.
  apply (in_range_bitwise orb). intros. apply Z.lor_spec.
Qed.

Lemma lxor_in_range (x y : Z) :
  Int32.in_range x -> Int32.in_range y -> Int32.in_range (Z.lxor x y).
Proof.
  apply (in_range_bitwise xorb). intros. apply Z.lxor_spec.
Qed.

End SignExtension.

(** * Facts about rounding, shifting and saturation *)

Section RoundingFacts.

Lemma round_half_up_nearest (num den : Z) :
  0 < den -> nearest_ties_up num den (Scalar.round_half_up num den).
Proof.
  intros Hd. unfold nearest_ties_up, Scalar.round_half_up.
  pose proof (Z.mul_div_le (2 * num + den) (2 * den) ltac:(lia)).
  pose proof (Z.mul_succ_div_gt (2 * num + den) (2 * den) ltac:(lia)).
  lia.
Qed.

Lemma nearest_ties_up_unique (num den r r' : Z) :
  0 < den -> nearest_ties_up num den r -> nearest_ties_up num den r' -> r = r'.
Proof. unfold nearest_ties_up. intros Hd H H'. nia. Qed.

(** Adding half the divisor before a flooring division rounds half up. *)
Lemma round_half_up_even (num half : Z) :
  0 < half ->
  (num + half) / (2 * half) = Scalar.round_half_up num (2 * half).
Proof.
  intros Hh. unfold Scalar.round_half_up.
  replace (2 * num + 2 * half) with (2 * (num + half)) by lia.
  rewrite Z.div_mul_cancel_l by lia. reflexivity.
Qed.

Lemma pow2_pos (n : Z) : 0 <= n -> 0 < 2 ^ n.
Proof. intros H. apply Z.pow_pos_nonneg; lia. Qed.

Lemma pow2_split (n : Z) : 0 < n -> 2 ^ n = 2 * 2 ^ (n - 1).
Proof.
  intros H. rewrite <- Z.pow_succ_r by lia. f_equal. lia.
Qed.

(** The lane SRHADD produces. *)
Lemma vrhadd_lane (x y : Z) :
  Int32.in_range x -> Int32.in_range y ->
  Int32.wrap (Z.shiftr (x + y + 1) 1) = (x + y + 1) / 2.
Proof.
  intros Hx Hy. rewrite Z.shiftr_div_pow2 by lia. change (2 ^ 1) with 2.
  apply wrap_id.
  unfold Int32.in_range, Int32.min, Int32.max in *.
  pose proof (Z.mul_div_le (x + y + 1) 2 ltac:(lia)).
  pose proof (Z.mul_succ_div_gt (x + y + 1) 2 ltac:(lia)).
  lia.
Qed.

(** The lane SQRDMULH produces before saturation. *)
Lemma vqrdmulh_unsaturated (x y : Z) :
  Z.shiftr (2 * x * y + Z.shiftl 1 31) 32
  = Scalar.round_half_up (2 * x * y) (2 ^ 32).
Proof.
  rewrite Z.shiftr_div_pow2, Z.shiftl_mul_pow2 by lia.
  rewrite Z.mul_1_l. change (2 ^ 32) with (2 * 2 ^ 31).
  apply round_half_up_even. lia.
Qed.

Lemma product_bounds (x y : Z) :
  Int32.in_range x -> Int32.in_range y ->
  ~ (x = Int32.min /\ y = Int32.min) ->
  - (2 ^ 62 - 2 ^ 31) <= x * y <= 2 ^ 62 - 2 ^ 31.
Proof.
  unfold Int32.in_range, Int32.min, Int32.max. intros Hx Hy Hn.
  assert (Hc : x = - 2 ^ 31 \/ y = - 2 ^ 31
               \/ (- (2 ^ 31 - 1) <= x /\ - (2 ^ 31 - 1) <= y)) by lia.
  destruct Hc as [-> | [-> | [Hx' Hy']]]; [lia | lia | nia].
Qed.

Lemma round_high_in_range (x y : Z) :
  Int32.in_range x -> Int32.in_range y ->
  ~ (x = Int32.min /\ y = Int32.min) ->
  Int32.in_range (Scalar.round_half_up (2 * x * y) (2 ^ 32)).
Proof.
  intros Hx Hy Hn.
  pose proof (product_bounds x y Hx Hy Hn) as Hp.
  pose proof (round_half_up_nearest (2 * x * y) (2 ^ 32) ltac:(lia)) as Hr.
  set (r := Scalar.round_half_up (2 * x * y) (2 ^ 32)) in *.
  replace (2 * x * y) with (2 * (x * y)) in Hr by lia.
  set (p := x * y) in *.
  unfold nearest_ties_up, Int32.in_range, Int32.min, Int32.max in *. lia.
Qed.

Lemma vqrdmulh_lane (x y : Z) :
  Int32.in_range x -> Int32.in_range y ->
  Int32.SignedSat (Z.shiftr (2 * x * y + Z.shiftl 1 31) 32)
  = Scalar.SaturatingRoundingDoublingHighMul x y.
Proof.
  intros Hx Hy. rewrite vqrdmulh_unsaturated.
  unfold Scalar.SaturatingRoundingDoublingHighMul.
  destruct (Z.eqb_spec x Int32.min) as [Hxm | Hxm];
    [destruct (Z.eqb_spec y Int32.min) as [Hym | Hym] |]; cbn [andb].
  - subst x y. reflexivity.
  - apply SignedSat_id, round_high_in_range; tauto.
  - apply SignedSat_id, round_high_in_range; tauto.
Qed.

(** The lane SQSHL produces. *)
Lemma vqshl_lane (x n : Z) :
  0 <= n -> Int32.SignedSat (Z.shiftl x n) = Scalar.clamp (x * 2 ^ n).
Proof.
  intros Hn. rewrite Z.shiftl_mul_pow2 by assumption. apply SignedSat_clamp.
Qed.

(** The lane SRSHR produces. *)
Lemma vrshr_lane (x n : Z) :
  0 < n -> Int32.in_range x ->
  Int32.wrap (Z.shiftr (x + Z.shiftl 1 (n - 1)) n)
  = Scalar.round_half_up x (2 ^ n).
Proof.
  intros Hn Hx.
  rewrite Z.shiftr_div_pow2, Z.shiftl_mul_pow2, Z.mul_1_l by lia.
  rewrite (pow2_split n Hn).
  pose proof (pow2_pos (n - 1) ltac:(lia)) as Hp.
  rewrite round_half_up_even by assumption.
  apply wrap_id.
  pose proof (round_half_up_nearest x (2 * 2 ^ (n - 1)) ltac:(lia)) as Hr.
  set (r := Scalar.round_half_up x (2 * 2 ^ (n - 1))) in *.
  set (h := 2 ^ (n - 1)) in *.
  unfold nearest_ties_up, Int32.in_range, Int32.min, Int32.max in *.
  nia.
Qed.

End RoundingFacts.

(** * Lanes of the results of the backend *)

Section Lanes.

Import gemmlowp.

Lemma lane_lanewise1 (f : Z -> Z) (a : int32x4_t) (i : lane_index) :
  lane i (lanewise1 f a) = f (lane i a).
Proof. destruct i; reflexivity. Qed.

Lemma lane_lanewise2 (f : Z -> Z -> Z) (a b : int32x4_t) (i : lane_index) :
  lane i (lanewise2 f a b) = f (lane i a) (lane i b).
Proof. destruct i; reflexivity. Qed.

Lemma lane_vdupq_n_s32 (x : Z) (i : lane_index) :
  lane i (Neon.vdupq_n_s32 x) = x.
Proof. destruct i; reflexivity. Qed.

Lemma lane_compare (test : Z -> Z -> bool) (a b : int32x4_t) (i : lane_index) :
  lane i (Neon.vreinterpretq_s32_u32 (compare_lanes test a b))
  = Scalar.mask_of (test (lane i a) (lane i b)).
Proof. destruct i; apply wrap_compare_lane. Qed.

(** Two registers with the same four lanes are the same register. *)
Lemma int32x4_ext (a b : int32x4_t) :
  (forall i, lane i a = lane i b) -> a = b.
Proof.
  intros H. destruct a, b.
  pose proof (H L0). pose proof (H L1). pose proof (H L2). pose proof (H L3).
  simpl in *. congruence.
Qed.

Lemma wfb_spec (v : int32x4_t) : wfb v = true -> wf v.
Proof.
  unfold wfb, all_lanes. simpl. rewrite !andb_true_iff, !in_rangeb_spec.
  intros H i. destruct i; tauto.
Qed.

Lemma lane_BitNot (a : int32x4_t) (i : lane_index) :
  lane i (BitNot a) = Z.lnot (lane i a).
Proof.
  unfold BitNot, Neon.veorq_s32.
  rewrite lane_lanewise2, lane_vdupq_n_s32. apply lxor_all_ones.
Qed.

Lemma lane_SelectUsingMask (m t e : int32x4_t) (i : lane_index) :
  lane i (SelectUsingMask m t e)
  = Z.lor (Z.land (lane i m) (lane i t)) (Z.land (Z.lnot (lane i m)) (lane i e)).
Proof.
  unfold SelectUsingMask, BitXor, BitAnd, BitNot, Neon.veorq_s32, Neon.vandq_s32.
  rewrite !lane_lanewise2, lane_vdupq_n_s32. apply select_xor_is_or.
Qed.

Lemma lane_MaskIfEqual (a b : int32x4_t) (i : lane_index) :
  lane i (MaskIfEqual a b) = Scalar.mask_of (lane i a =? lane i b).
Proof. apply lane_compare. Qed.

Lemma lane_MaskIfNotEqual (a b : int32x4_t) (i : lane_index) :
  lane i (MaskIfNotEqual a b) = Scalar.mask_of (negb (lane i a =? lane i b)).
Proof.
  unfold MaskIfNotEqual. rewrite lane_BitNot, lane_MaskIfEqual.
  rewrite <- lxor_all_ones. apply lnot_mask_of.
Qed.

Lemma lane_MaskIfZero (a : int32x4_t) (i : lane_index) :
  lane i (MaskIfZero a) = Scalar.mask_of (lane i a =? 0).
Proof.
  unfold MaskIfZero. rewrite lane_MaskIfEqual, lane_vdupq_n_s32. reflexivity.
Qed.

Lemma lane_MaskIfNonZero (a : int32x4_t) (i : lane_index) :
  lane i (MaskIfNonZero a) = Scalar.mask_of (negb (lane i a =? 0)).
Proof.
  unfold MaskIfNonZero. rewrite lane_BitNot, lane_MaskIfZero.
  rewrite <- lxor_all_ones. apply lnot_mask_of.
Qed.

Lemma lane_MaskIfGreaterThan (a b : int32x4_t) (i : lane_index) :
  lane i (MaskIfGreaterThan a b) = Scalar.mask_of (lane i b <? lane i a).
Proof.
  unfold MaskIfGreaterThan, Neon.vcgtq_s32.
  rewrite lane_compare, Z.gtb_ltb. reflexivity.
Qed.

Lemma lane_MaskIfGreaterThanOrEqual (a b : int32x4_t) (i : lane_index) :
  lane i (MaskIfGreaterThanOrEqual a b) = Scalar.mask_of (lane i b <=? lane i a).
Proof.
  unfold MaskIfGreaterThanOrEqual, Neon.vcgeq_s32.
  rewrite lane_compare, Z.geb_leb. reflexivity.
Qed.

Lemma lane_MaskIfLessThan (a b : int32x4_t) (i : lane_index) :
  lane i (MaskIfLessThan a b) = Scalar.mask_of (lane i a <? lane i b).
Proof. apply lane_compare. Qed.

Lemma lane_MaskIfLessThanOrEqual (a b : int32x4_t) (i : lane_index) :
  lane i (MaskIfLessThanOrEqual a b) = Scalar.mask_of (lane i a <=? lane i b).
Proof. apply lane_compare. Qed.

Lemma is_mask_mask_of (c : bool) : Int32.is_mask (Scalar.mask_of c) = true.
Proof. destruct c; reflexivity. Qed.

Lemma lane_RoundingHalfSum (a b : int32x4_t) (i : lane_index) :
  wf a -> wf b ->
  lane i (RoundingHalfSum a b) = (lane i a + lane i b + 1) / 2.
Proof.
  intros Ha Hb. unfold RoundingHalfSum, Neon.vrhaddq_s32.
  rewrite lane_lanewise2. apply vrhadd_lane; [apply Ha | apply Hb].
Qed.

Lemma lane_SaturatingRoundingDoublingHighMul (a b : int32x4_t) (i : lane_index) :
  wf a -> wf b ->
  lane i (SaturatingRoundingDoublingHighMul a b)
  = Scalar.SaturatingRoundingDoublingHighMul (lane i a) (lane i b).
Proof.
  intros Ha Hb. unfold SaturatingRoundingDoublingHighMul, Neon.vqrdmulhq_s32.
  rewrite lane_lanewise2. apply vqrdmulh_lane; [apply Ha | apply Hb].
Qed.

Lemma POT_positive (e : Z) (x : int32x4_t) :
  0 < e ->
  SaturatingRoundingMultiplyByPOT e x = Some (Neon.vqshlq_n_s32 x e).
Proof.
  intros He. unfold SaturatingRoundingMultiplyByPOT, ExponentSign.
  destruct (Z.ltb_spec 0 e); [reflexivity | lia].
Qed.

Lemma POT_negative (e : Z) (x : int32x4_t) :
  e < 0 ->
  SaturatingRoundingMultiplyByPOT e x = Some (Neon.vrshrq_n_s32 x (- e)).
Proof.
  intros He. unfold SaturatingRoundingMultiplyByPOT, ExponentSign.
  destruct (Z.ltb_spec 0 e); [lia|].
  destruct (Z.ltb_spec e 0); [reflexivity | lia].
Qed.

Lemma POT_zero (x : int32x4_t) : SaturatingRoundingMultiplyByPOT 0 x = None.
Proof. reflexivity. Qed.

Lemma lane_vqshlq_n_s32 (x : int32x4_t) (n : Z) (i : lane_index) :
  0 <= n ->
  lane i (Neon.vqshlq_n_s32 x n) = Scalar.clamp (lane i x * 2 ^ n).
Proof.
  intros Hn. unfold Neon.vqshlq_n_s32. rewrite lane_lanewise1.
  apply vqshl_lane. assumption.
Qed.

Lemma lane_vrshrq_n_s32 (x : int32x4_t) (n : Z) (i : lane_index) :
  0 < n -> wf x ->
  lane i (Neon.vrshrq_n_s32 x n) = Scalar.round_half_up (lane i x) (2 ^ n).
Proof.
  intros Hn Hx. unfold Neon.vrshrq_n_s32. rewrite lane_lanewise1.
  apply vrshr_lane; [assumption | apply Hx].
Qed.

Lemma lane_POT (e : Z) (x : int32x4_t) (i : lane_index) :
  wf x ->
  option_map (lane i) (SaturatingRoundingMultiplyByPOT e x)
  = Scalar.SaturatingRoundingMultiplyByPOT e (lane i x).
Proof.
  intros Hx. unfold Scalar.SaturatingRoundingMultiplyByPOT.
  destruct (Z.ltb_spec 0 e) as [Hp | Hp].
  - rewrite POT_positive by assumption. simpl.
    rewrite lane_vqshlq_n_s32 by lia. reflexivity.
  - destruct (Z.ltb_spec e 0) as [Hn | Hn].
    + rewrite POT_negative by assumption. simpl.
      rewrite lane_vrshrq_n_s32 by (assumption || lia). reflexivity.
    + replace e with 0 by lia. reflexivity.
Qed.

Lemma to_bool_mask (v : Z) :
  Int32.in_range v -> Int32.is_mask v = true ->
  to_bool v = Int32.all_ones v /\ Int32.all_zeros v = negb (Int32.all_ones v).
Proof.
  intros Hr Hm. destruct (is_mask_cases v Hr Hm) as [-> | ->]; split; reflexivity.
Qed.

End Lanes.

(** * Every operation returns four signed 32-bit lanes *)

Section Closure.

Import gemmlowp.

Lemma wf_lanewise2 (f : Z -> Z -> Z) (a b : int32x4_t) :
  (forall i, Int32.in_range (f (lane i a) (lane i b))) -> wf (lanewise2 f a b).
Proof. intros H i. rewrite lane_lanewise2. apply H. Qed.

Lemma wf_lanewise1 (f : Z -> Z) (a : int32x4_t) :
  (forall i, Int32.in_range (f (lane i a))) -> wf (lanewise1 f a).
Proof. intros H i. rewrite lane_lanewise1. apply H. Qed.

Lemma wf_of_mask_vector_lanes (v : int32x4_t) :
  (forall i, exists c, lane i v = Scalar.mask_of c) -> wf v.
Proof.
  intros H i. destruct (H i) as [c ->].
  apply in_rangeb_spec. destruct c; reflexivity.
Qed.

Lemma wf_Dup (x : Z) : Int32.in_range x -> wf (Dup x).
Proof. intros Hx i. unfold Dup. rewrite lane_vdupq_n_s32. exact Hx. Qed.

(** The raw-value invariant: on registers of signed 32-bit lanes, every
    operation of the backend yields a register of signed 32-bit lanes. *)
Lemma backend_preserves_wf (a b c : int32x4_t) (e : Z) :
  wf a -> wf b -> wf c ->
  wf (BitAnd a b) /\ wf (BitOr a b) /\ wf (BitXor a b) /\ wf (BitNot a)
  /\ wf (Add a b) /\ wf (Sub a b) /\ wf (Neg a)
  /\ wf (SelectUsingMask a b c)
  /\ wf (MaskIfEqual a b) /\ wf (MaskIfNotEqual a b)
  /\ wf (MaskIfZero a) /\ wf (MaskIfNonZero a)
  /\ wf (MaskIfGreaterThan a b) /\ wf (MaskIfGreaterThanOrEqual a b)
  /\ wf (MaskIfLessThan a b) /\ wf (MaskIfLessThanOrEqual a b)
  /\ wf (RoundingHalfSum a b)
  /\ wf (SaturatingRoundingDoublingHighMul a b)
  /\ (forall y, SaturatingRoundingMultiplyByPOT e a = Some y -> wf y).
Proof.
  intros Ha Hb Hc.
  assert (Hnot : forall v, wf v -> wf (BitNot v)).
  { intros v Hv. apply wf_lanewise2. intros i. rewrite lane_vdupq_n_s32.
    apply lxor_in_range; [apply Hv|]. apply in_rangeb_spec. reflexivity. }
  assert (Hand : forall u v, wf u -> wf v -> wf (BitAnd u v)).
  { intros u v Hu Hv. apply wf_lanewise2. intros i.
    apply land_in_range; [apply Hu | apply Hv]. }
  repeat match goal with |- _ /\ _ => split end.
  - apply Hand; assumption.
  - apply wf_lanewise2. intros i. apply lor_in_range; [apply Ha | apply Hb].
  - apply wf_lanewise2. intros i. apply lxor_in_range; [apply Ha | apply Hb].
  - apply Hnot; assumption.
  - apply wf_lanewise2. intros i. apply wrap_in_range.
  - apply wf_lanewise2. intros i. apply wrap_in_range.
  - apply wf_lanewise1. intros i. apply wrap_in_range.
  - apply wf_lanewise2. intros i.
    apply lxor_in_range; [apply Hand | apply Hand]; auto.
  - apply wf_of_mask_vector_lanes. intros i. eexists. apply lane_MaskIfEqual.
  - apply wf_of_mask_vector_lanes. intros i. eexists. apply lane_MaskIfNotEqual.
  - apply wf_of_mask_vector_lanes. intros i. eexists. apply lane_MaskIfZero.
  - apply wf_of_mask_vector_lanes. intros i. eexists. apply lane_MaskIfNonZero.
  - apply wf_of_mask_vector_lanes. intros i. eexists.
    apply lane_MaskIfGreaterThan.
  - apply wf_of_mask_vector_lanes. intros i. eexists.
    apply lane_MaskIfGreaterThanOrEqual.
  - apply wf_of_mask_vector_lanes. intros i. eexists. apply lane_MaskIfLessThan.
  - apply wf_of_mask_vector_lanes. intros i. eexists.
    apply lane_MaskIfLessThanOrEqual.
  - apply wf_lanewise2. intros i. apply wrap_in_range.
  - apply wf_lanewise2. intros i. apply SignedSat_in_range.
  - intros y Hy. unfold SaturatingRoundingMultiplyByPOT in Hy.
    unfold ImplSaturatingRoundingMultiplyByPOT in Hy.
    destruct (ExponentSign e =? 1); [|destruct (ExponentSign e =? -1)];
      simpl in Hy; inversion Hy; subst y.
    + apply wf_lanewise1. intros i. apply SignedSat_in_range.
    + apply wf_lanewise1. intros i. apply wrap_in_range.
Qed.

(** [kLanes] is the number of lanes [vst1q_s32] stores. *)
Lemma kLanes_stored (a : int32x4_t) :
  kLanes = Z.of_nat (length (Neon.vst1q_s32 a)).
Proof. reflexivity. Qed.

End Closure.

(** * The properties of the backend *)

Section Properties.

Import gemmlowp.

(** C1. Scalar/vector equivalence: for every operation of the NEON
    backend, lane [i] of the vector result is the scalar operation applied
    to lane [i] of the operands, for each of the four lanes. *)
Theorem neon_lanewise_scalar (a b c : int32x4_t) (x e : Z) (i : lane_index) :
  wf a -> wf b ->
  lane i (BitAnd a b) = Scalar.BitAnd (lane i a) (lane i b)
  /\ lane i (BitOr a b) = Scalar.BitOr (lane i a) (lane i b)
  /\ lane i (BitXor a b) = Scalar.BitXor (lane i a) (lane i b)
  /\ lane i (BitNot a) = Scalar.BitNot (lane i a)
  /\ lane i (Add a b) = Scalar.Add (lane i a) (lane i b)
  /\ lane i (Sub a b) = Scalar.Sub (lane i a) (lane i b)
  /\ lane i (Neg a) = Scalar.Neg (lane i a)
  /\ lane i (SelectUsingMask a b c)
     = Scalar.SelectUsingMask (lane i a) (lane i b) (lane i c)
  /\ lane i (MaskIfEqual a b) = Scalar.MaskIfEqual (lane i a) (lane i b)
  /\ lane i (MaskIfNotEqual a b) = Scalar.MaskIfNotEqual (lane i a) (lane i b)
  /\ lane i (MaskIfZero a) = Scalar.MaskIfZero (lane i a)
  /\ lane i (MaskIfNonZero a) = Scalar.MaskIfNonZero (lane i a)
  /\ lane i (MaskIfGreaterThan a b)
     = Scalar.MaskIfGreaterThan (lane i a) (lane i b)
  /\ lane i (MaskIfGreaterThanOrEqual a b)
     = Scalar.MaskIfGreaterThanOrEqual (lane i a) (lane i b)
  /\ lane i (MaskIfLessThan a b) = Scalar.MaskIfLessThan (lane i a) (lane i b)
  /\ lane i (MaskIfLessThanOrEqual a b)
     = Scalar.MaskIfLessThanOrEqual (lane i a) (lane i b)
  /\ lane i (RoundingHalfSum a b)
     = Scalar.RoundingHalfSum (lane i a) (lane i b)
  /\ lane i (SaturatingRoundingDoublingHighMul a b)
     = Scalar.SaturatingRoundingDoublingHighMul (lane i a) (lane i b)
  /\ option_map (lane i) (SaturatingRoundingMultiplyByPOT e a)
     = Scalar.SaturatingRoundingMultiplyByPOT e (lane i a)
  /\ lane i (Dup x) = Scalar.Dup x.
Proof.
  intros Ha Hb.
  repeat match goal with |- _ /\ _ => split end.
  - apply lane_lanewise2.
  - apply lane_lanewise2.
  - apply lane_lanewise2.
  - apply lane_BitNot.
  - apply lane_lanewise2.
  - apply lane_lanewise2.
  - apply lane_lanewise1.
  - apply lane_SelectUsingMask.
  - apply lane_MaskIfEqual.
  - apply lane_MaskIfNotEqual.
  - apply lane_MaskIfZero.
  - apply lane_MaskIfNonZero.
  - apply lane_MaskIfGreaterThan.
  - apply lane_MaskIfGreaterThanOrEqual.
  - apply lane_MaskIfLessThan.
  - apply lane_MaskIfLessThanOrEqual.
  - rewrite lane_RoundingHalfSum by assumption.
    unfold Scalar.RoundingHalfSum.
    apply (round_half_up_even (lane i a + lane i b) 1). lia.
  - apply lane_SaturatingRoundingDoublingHighMul; assumption.
  - apply lane_POT. assumption.
  - apply lane_vdupq_n_s32.
Qed.

Lemma neon_lanewise_scalar_witness :
  wf v_extremes /\ wf v_mixed
  /\ lane L0 (SaturatingRoundingDoublingHighMul v_extremes v_mixed)
     = Scalar.SaturatingRoundingDoublingHighMul Int32.min Int32.min
  /\ lane L1 (RoundingHalfSum v_extremes v_mixed)
     = Scalar.RoundingHalfSum Int32.max Int32.max
  /\ option_map (lane L3) (SaturatingRoundingMultiplyByPOT (-1) v_extremes)
     = Scalar.SaturatingRoundingMultiplyByPOT (-1) (-7).
Proof.
  assert (Ha : wf v_extremes) by (apply wfb_spec; reflexivity).
  assert (Hb : wf v_mixed) by (apply wfb_spec; reflexivity).
  split; [exact Ha|]. split; [exact Hb|].
  split; [|split].
  - apply (neon_lanewise_scalar v_extremes v_mixed v_zero 0 1 L0 Ha Hb).
  - apply (neon_lanewise_scalar v_extremes v_mixed v_zero 0 1 L1 Ha Hb).
  - apply (neon_lanewise_scalar v_extremes v_mixed v_zero 0 (-1) L3 Ha Hb).
Defined.

(** C2. [SaturatingRoundingDoublingHighMul] returns, per lane, the maximum
    when both lanes are the minimum, and otherwise the integer nearest to
    [2 * a * b / 2^32] (the upper one at a tie). *)
Theorem SaturatingRoundingDoublingHighMul_contract
  (a b : int32x4_t) (i : lane_index) :
  wf a -> wf b ->
  (lane i a = Int32.min /\ lane i b = Int32.min ->
   lane i (SaturatingRoundingDoublingHighMul a b) = Int32.max)
  /\ (~ (lane i a = Int32.min /\ lane i b = Int32.min) ->
      nearest_ties_up (2 * lane i a * lane i b) (2 ^ Int32.bitwidth)
        (lane i (SaturatingRoundingDoublingHighMul a b))).
Proof.
  intros Ha Hb.
  rewrite lane_SaturatingRoundingDoublingHighMul by assumption.
  unfold Scalar.SaturatingRoundingDoublingHighMul. split.
  - intros [-> ->]. reflexivity.
  - intros Hn.
    assert (Hc : (lane i a =? Int32.min) && (lane i b =? Int32.min) = false).
    { apply andb_false_iff.
      destruct (Z.eqb_spec (lane i a) Int32.min);
        destruct (Z.eqb_spec (lane i b) Int32.min); tauto. }
    rewrite Hc. apply round_half_up_nearest. reflexivity.
Qed.

Lemma SaturatingRoundingDoublingHighMul_contract_witness :
  wf v_extremes /\ wf v_mixed
  /\ lane L0 (SaturatingRoundingDoublingHighMul v_extremes v_mixed) = Int32.max
  /\ nearest_ties_up (2 * 5 * 3) (2 ^ 32)
       (lane L2 (SaturatingRoundingDoublingHighMul v_extremes v_mixed)).
Proof.
  assert (Ha : wf v_extremes) by (apply wfb_spec; reflexivity).
  assert (Hb : wf v_mixed) by (apply wfb_spec; reflexivity).
  split; [exact Ha|]. split; [exact Hb|]. split.
  - apply (SaturatingRoundingDoublingHighMul_contract v_extremes v_mixed L0 Ha Hb).
    split; reflexivity.
  - apply (SaturatingRoundingDoublingHighMul_contract v_extremes v_mixed L2 Ha Hb).
    intros [H _]. discriminate H.
Defined.

(** C3. [RoundingHalfSum] returns, per lane, [(a + b) / 2] rounded to
    nearest with ties toward positive infinity, whatever the size of the
    exact sum, and the result lies between the smaller and the larger of
    the two lanes. *)
Theorem RoundingHalfSum_contract (a b : int32x4_t) (i : lane_index) :
  wf a -> wf b ->
  nearest_ties_up (lane i a + lane i b) 2 (lane i (RoundingHalfSum a b))
  /\ Z.min (lane i a) (lane i b) <= lane i (RoundingHalfSum a b)
     <= Z.max (lane i a) (lane i b).
Proof.
  intros Ha Hb. rewrite lane_RoundingHalfSum by assumption.
  set (x := lane i a). set (y := lane i b).
  pose proof (Z.mul_div_le (x + y + 1) 2 ltac:(lia)).
  pose proof (Z.mul_succ_div_gt (x + y + 1) 2 ltac:(lia)).
  unfold nearest_ties_up. lia.
Qed.

Lemma RoundingHalfSum_contract_witness :
  wf v_extremes /\ wf v_mixed
  /\ nearest_ties_up (Int32.max + Int32.max) 2
       (lane L1 (RoundingHalfSum v_extremes v_mixed))
  /\ Z.min Int32.max Int32.max <= lane L1 (RoundingHalfSum v_extremes v_mixed)
     <= Z.max Int32.max Int32.max.
Proof.
  assert (Ha : wf v_extremes) by (apply wfb_spec; reflexivity).
  assert (Hb : wf v_mixed) by (apply wfb_spec; reflexivity).
  split; [exact Ha|]. split; [exact Hb|].
  apply (RoundingHalfSum_contract v_extremes v_mixed L1 Ha Hb).
Defined.

(** C4. On a mask vector, [SelectUsingMask] returns per lane [then_val]
    where the mask lane is all ones and [else_val] where it is all zeros,
    and it equals the reference formula [(mask & then_val) | (~mask &
    else_val)]. *)
Theorem SelectUsingMask_truth_table
  (if_mask then_val else_val : int32x4_t) (i : lane_index) :
  wf if_mask -> mask_vector if_mask ->
  (Int32.all_ones (lane i if_mask) = true ->
   lane i (SelectUsingMask if_mask then_val else_val) = lane i then_val)
  /\ (Int32.all_zeros (lane i if_mask) = true ->
      lane i (SelectUsingMask if_mask then_val else_val) = lane i else_val)
  /\ SelectUsingMask if_mask then_val else_val
     = BitOr (BitAnd if_mask then_val) (BitAnd (BitNot if_mask) else_val).
Proof.
  intros Hw Hm. split; [|split].
  - intros H1. rewrite lane_SelectUsingMask.
    destruct (is_mask_cases _ (Hw i) (Hm i)) as [E | E]; rewrite E in *.
    + rewrite Z.land_m1_l. change (Z.lnot (-1)) with 0.
      rewrite Z.land_0_l. apply Z.lor_0_r.
    + discriminate H1.
  - intros H0. rewrite lane_SelectUsingMask.
    destruct (is_mask_cases _ (Hw i) (Hm i)) as [E | E]; rewrite E in *.
    + discriminate H0.
    + rewrite Z.land_0_l. change (Z.lnot 0) with (-1).
      rewrite Z.land_m1_l. apply Z.lor_0_l.
  - apply int32x4_ext. intros j. rewrite lane_SelectUsingMask.
    unfold BitOr, BitAnd, Neon.vorrq_s32, Neon.vandq_s32.
    rewrite !lane_lanewise2, lane_BitNot. reflexivity.
Qed.

Lemma SelectUsingMask_truth_table_witness :
  wf v_mask /\ mask_vector v_mask
  /\ lane L2 (SelectUsingMask v_mask v_extremes v_mixed) = lane L2 v_extremes
  /\ lane L3 (SelectUsingMask v_mask v_extremes v_mixed) = lane L3 v_mixed.
Proof.
  assert (Hw : wf v_mask) by (apply wfb_spec; reflexivity).
  assert (Hm : mask_vector v_mask) by (intros i; destruct i; reflexivity).
  split; [exact Hw|]. split; [exact Hm|]. split.
  - exact (proj1 (SelectUsingMask_truth_table v_mask v_extremes v_mixed L2 Hw Hm)
             eq_refl).
  - exact (proj1 (proj2
             (SelectUsingMask_truth_table v_mask v_extremes v_mixed L3 Hw Hm))
             eq_refl).
Defined.

(** C5. Mask well-formedness: every lane of the result of each of the
    eight comparison operations has its 32 bits all set or all clear. *)
Theorem comparison_results_are_masks (a b : int32x4_t) :
  mask_vector (MaskIfEqual a b)
  /\ mask_vector (MaskIfNotEqual a b)
  /\ mask_vector (MaskIfZero a)
  /\ mask_vector (MaskIfNonZero a)
  /\ mask_vector (MaskIfGreaterThan a b)
  /\ mask_vector (MaskIfGreaterThanOrEqual a b)
  /\ mask_vector (MaskIfLessThan a b)
  /\ mask_vector (MaskIfLessThanOrEqual a b).
Proof.
  repeat match goal with |- _ /\ _ => split end; intros i.
  - rewrite lane_MaskIfEqual. apply is_mask_mask_of.
  - rewrite lane_MaskIfNotEqual. apply is_mask_mask_of.
  - rewrite lane_MaskIfZero. apply is_mask_mask_of.
  - rewrite lane_MaskIfNonZero. apply is_mask_mask_of.
  - rewrite lane_MaskIfGreaterThan. apply is_mask_mask_of.
  - rewrite lane_MaskIfGreaterThanOrEqual. apply is_mask_mask_of.
  - rewrite lane_MaskIfLessThan. apply is_mask_mask_of.
  - rewrite lane_MaskIfLessThanOrEqual. apply is_mask_mask_of.
Qed.

(** C6. [SaturatingRoundingMultiplyByPOT<e>] computes per lane, for
    [e > 0], the left shift by [e] clamped at the minimum and the maximum,
    and for [e < 0] the right shift by [-e] rounded to nearest; the header
    has no specialization for [e = 0]. *)
Theorem SaturatingRoundingMultiplyByPOT_contract
  (e : Z) (x : int32x4_t) (i : lane_index) :
  wf x ->
  (0 < e ->
   exists y, SaturatingRoundingMultiplyByPOT e x = Some y
             /\ lane i y = Scalar.clamp (lane i x * 2 ^ e))
  /\ (e < 0 ->
      exists y, SaturatingRoundingMultiplyByPOT e x = Some y
                /\ nearest_ties_up (lane i x) (2 ^ (- e)) (lane i y))
  /\ (e = 0 ->
      ImplSaturatingRoundingMultiplyByPOT e (ExponentSign e) = None
      /\ SaturatingRoundingMultiplyByPOT e x = None).
Proof.
  intros Hx. split; [|split].
  - intros He. eexists. split; [apply POT_positive; assumption|].
    apply lane_vqshlq_n_s32. lia.
  - intros He. eexists. split; [apply POT_negative; assumption|].
    rewrite lane_vrshrq_n_s32 by (assumption || lia).
    apply round_half_up_nearest, pow2_pos. lia.
  - intros ->. split; reflexivity.
Qed.

Lemma SaturatingRoundingMultiplyByPOT_contract_witness :
  wf v_extremes
  /\ (exists y, SaturatingRoundingMultiplyByPOT 1 v_extremes = Some y
                /\ lane L1 y = Scalar.clamp (Int32.max * 2 ^ 1))
  /\ (exists y, SaturatingRoundingMultiplyByPOT (-1) v_extremes = Some y
                /\ nearest_ties_up 5 (2 ^ 1) (lane L2 y))
  /\ SaturatingRoundingMultiplyByPOT 0 v_extremes = None.
Proof.
  assert (Hx : wf v_extremes) by (apply wfb_spec; reflexivity).
  split; [exact Hx|]. split; [|split].
  - apply (SaturatingRoundingMultiplyByPOT_contract 1 v_extremes L1 Hx).
    reflexivity.
  - apply (SaturatingRoundingMultiplyByPOT_contract (-1) v_extremes L2 Hx).
    reflexivity.
  - apply (SaturatingRoundingMultiplyByPOT_contract 0 v_extremes L0 Hx).
    reflexivity.
Defined.

(** C7. On a mask vector, [All] is true exactly when every lane is all
    ones, [Any] is true exactly when some lane is all ones, and both are
    false when every lane is all zeros. *)
Theorem All_Any_on_mask_vectors (m : int32x4_t) :
  wf m -> mask_vector m ->
  (All m = true <-> forall i, Int32.all_ones (lane i m) = true)
  /\ (Any m = true <-> exists i, Int32.all_ones (lane i m) = true)
  /\ ((forall i, Int32.all_zeros (lane i m) = true) ->
      All m = false /\ Any m = false).
Proof.
  intros Hw Hm.
  pose proof (to_bool_mask _ (Hw L0) (Hm L0)) as [B0 Z0].
  pose proof (to_bool_mask _ (Hw L1) (Hm L1)) as [B1 Z1].
  pose proof (to_bool_mask _ (Hw L2) (Hm L2)) as [B2 Z2].
  pose proof (to_bool_mask _ (Hw L3) (Hm L3)) as [B3 Z3].
  unfold All, Any, Neon.vst1q_s32. cbn [nth].
  cbn [lane] in *. rewrite B0, B1, B2, B3.
  split; [|split].
  - rewrite !andb_true_iff. split.
    + intros H i. destruct i; cbn [lane]; tauto.
    + intros H.
      pose proof (H L0). pose proof (H L1). pose proof (H L2). pose proof (H L3).
      cbn [lane] in *. tauto.
  - rewrite !orb_true_iff. split.
    + intros [[[H | H] | H] | H];
        [exists L0 | exists L1 | exists L2 | exists L3]; exact H.
    + intros [i H]. destruct i; cbn [lane] in H; tauto.
  - intros H.
    pose proof (H L0) as H0. pose proof (H L1) as H1.
    pose proof (H L2) as H2. pose proof (H L3) as H3.
    cbn [lane] in *. rewrite Z0 in H0. rewrite Z1 in H1.
    rewrite Z2 in H2. rewrite Z3 in H3.
    apply negb_true_iff in H0, H1, H2, H3.
    rewrite H0, H1, H2, H3. split; reflexivity.
Qed.

Lemma All_Any_on_mask_vectors_witness :
  wf v_mask /\ mask_vector v_mask
  /\ (Any v_mask = true <-> exists i, Int32.all_ones (lane i v_mask) = true)
  /\ wf v_zero /\ mask_vector v_zero
  /\ All v_zero = false /\ Any v_zero = false.
Proof.
  assert (Hw : wf v_mask) by (apply wfb_spec; reflexivity).
  assert (Hm : mask_vector v_mask) by (intros i; destruct i; reflexivity).
  assert (Hw0 : wf v_zero) by (apply wfb_spec; reflexivity).
  assert (Hm0 : mask_vector v_zero) by (intros i; destruct i; reflexivity).
  split; [exact Hw|]. split; [exact Hm|]. split.
  - exact (proj1 (proj2 (All_Any_on_mask_vectors v_mask Hw Hm))).
  - split; [exact Hw0|]. split; [exact Hm0|].
    apply (proj2 (proj2 (All_Any_on_mask_vectors v_zero Hw0 Hm0))).
    intros i. destruct i; reflexivity.
Defined.

(** Rounding the exact multiple [x * 2^e] back by [e] places gives [x]. *)
Lemma round_half_up_multiple (x d : Z) :
  0 < d -> Scalar.round_half_up (x * d) d = x.
Proof.
  intros Hd. apply (nearest_ties_up_unique (x * d) d); try assumption.
  - apply round_half_up_nearest. assumption.
  - unfold nearest_ties_up. nia.
Qed.

Lemma POT_round_trip_exact (e : Z) (x : int32x4_t) :
  wf x -> 0 < e ->
  (forall j, saturates e (lane j x) = false) ->
  exists y, SaturatingRoundingMultiplyByPOT e x = Some y
            /\ SaturatingRoundingMultiplyByPOT (- e) y = Some x.
Proof.
  intros Hx He Hs. eexists. split; [apply POT_positive; assumption|].
  rewrite POT_negative by lia. f_equal.
  apply int32x4_ext. intros i.
  rewrite lane_vrshrq_n_s32.
  - unfold Neon.vqshlq_n_s32. rewrite lane_lanewise1.
    specialize (Hs i). unfold saturates in Hs.
    apply negb_false_iff, in_rangeb_spec in Hs.
    rewrite SignedSat_id by assumption.
    rewrite Z.shiftl_mul_pow2, Z.opp_involutive by lia.
    apply round_half_up_multiple, pow2_pos. lia.
  - lia.
  - intros j. unfold Neon.vqshlq_n_s32. rewrite lane_lanewise1.
    apply SignedSat_in_range.
Qed.

(** C8. Power-of-two shift round trip: when the left shift by [e > 0]
    saturates no lane, shifting its result back by [-e] gives, per lane, a
    value within one unit of the original lane. *)
Theorem POT_round_trip (e : Z) (x : int32x4_t) (i : lane_index) :
  wf x -> 0 < e ->
  (forall j, saturates e (lane j x) = false) ->
  exists y z,
    SaturatingRoundingMultiplyByPOT e x = Some y
    /\ SaturatingRoundingMultiplyByPOT (- e) y = Some z
    /\ Z.abs (lane i z - lane i x) <= 1.
Proof.
  intros Hx He Hs.
  destruct (POT_round_trip_exact e x Hx He Hs) as [y [Hy Hz]].
  exists y, x. split; [exact Hy|]. split; [exact Hz|].
  rewrite Z.sub_diag. simpl. lia.
Qed.

Lemma POT_round_trip_witness :
  wf v_mixed_small /\ 0 < 3
  /\ (forall j, saturates 3 (lane j v_mixed_small) = false)
  /\ exists y z,
       SaturatingRoundingMultiplyByPOT 3 v_mixed_small = Some y
       /\ SaturatingRoundingMultiplyByPOT (- 3) y = Some z
       /\ Z.abs (lane L0 z - lane L0 v_mixed_small) <= 1.
Proof.
  assert (Hx : wf v_mixed_small) by (apply wfb_spec; reflexivity).
  assert (He : 0 < 3) by reflexivity.
  assert (Hs : forall j, saturates 3 (lane j v_mixed_small) = false)
    by (intros j; destruct j; reflexivity).
  split; [exact Hx|]. split; [exact He|]. split; [exact Hs|].
  apply (POT_round_trip 3 v_mixed_small L0 Hx He Hs).
Defined.

(** C9. [Add], [Sub] and [Neg] are arithmetic modulo [2^32]: each lane of
    the result is the signed 32-bit number congruent to the exact sum,
    difference or opposite, with no saturation; the opposite of the
    minimum is the minimum again. *)
Theorem Add_Sub_Neg_wrap_around (a b : int32x4_t) (i : lane_index) :
  (Int32.in_range (lane i (Add a b))
   /\ congruent32 (lane i (Add a b)) (lane i a + lane i b))
  /\ (Int32.in_range (lane i (Sub a b))
      /\ congruent32 (lane i (Sub a b)) (lane i a - lane i b))
  /\ (Int32.in_range (lane i (Neg a))
      /\ congruent32 (lane i (Neg a)) (- lane i a))
  /\ Neg (Dup Int32.min) = Dup Int32.min
  /\ Add (Dup Int32.max) (Dup 1) = Dup Int32.min
  /\ Sub (Dup Int32.min) (Dup 1) = Dup Int32.max.
Proof.
  unfold Add, Sub, Neg, Neon.vaddq_s32, Neon.vsubq_s32, Neon.vnegq_s32.
  rewrite !lane_lanewise2, lane_lanewise1.
  repeat match goal with |- _ /\ _ => split end;
    try apply wrap_in_range; try apply wrap_congruent; reflexivity.
Qed.

(** C10. For all registers, well-formed masks or not, the exclusive-or
    form of the NEON [SelectUsingMask] equals the inclusive-or reference
    formula, the two operands having no set bit in common. *)
Theorem SelectUsingMask_xor_is_or (m t e : int32x4_t) :
  SelectUsingMask m t e = BitOr (BitAnd m t) (BitAnd (BitNot m) e)
  /\ BitAnd (BitAnd m t) (BitAnd (BitNot m) e) = Dup 0.
Proof.
  split; apply int32x4_ext; intros i.
  - rewrite lane_SelectUsingMask.
    unfold BitOr, BitAnd, Neon.vorrq_s32, Neon.vandq_s32.
    rewrite !lane_lanewise2, lane_BitNot. reflexivity.
  - unfold BitAnd, Neon.vandq_s32, Dup.
    rewrite !lane_lanewise2, lane_BitNot, lane_vdupq_n_s32.
    apply select_operands_disjoint.
Qed.

(** The end-to-end example of the specification. *)
Example dup_compare_select :
  MaskIfEqual (Dup 5) (mk_int32x4 5 3 5 9) = v_mask
  /\ SelectUsingMask v_mask (Dup 1) (Dup 0) = mk_int32x4 1 0 1 0.
Proof. split; reflexivity. Qed.

(** The left shift clamps where a plain shift would wrap, and the right
    shift rounds where a plain shift would truncate. *)
Example POT_saturates_and_rounds :
  SaturatingRoundingMultiplyByPOT 1 (mk_int32x4 (2 ^ 30) (- 2 ^ 30 - 1) 3 (-3))
  = Some (mk_int32x4 Int32.max Int32.min 6 (-6))
  /\ SaturatingRoundingMultiplyByPOT (-1) (mk_int32x4 1 3 (-1) (-3))
     = Some (mk_int32x4 1 2 0 (-1)).
Proof. split; reflexivity. Qed.

(** [All] and [Any] on the mask of the example and on the zero mask. *)
Example All_Any_examples :
  All v_mask = false /\ Any v_mask = true
  /\ All (Dup (-1)) = true /\ Any v_zero = false /\ All v_zero = false.
Proof. repeat split; reflexivity. Qed.

End Properties.

(** * Further properties of the backend *)

(** ** Arithmetic modulo [2^32] *)

Section WrapArithmetic.

Lemma wrap_add_multiple (v k : Z) : Int32.wrap (v + k * 2 ^ 32) = Int32.wrap v.
Proof.
  unfold Int32.wrap.
  replace (v + k * 2 ^ 32 + 2 ^ 31) with (v + 2 ^ 31 + k * 2 ^ 32) by lia.
  rewrite Z.mod_add by lia. reflexivity.
Qed.

Lemma wrap_decompose (v : Z) : exists k, Int32.wrap v = v + k * 2 ^ 32.
Proof.
  exists (- ((v + 2 ^ 31) / 2 ^ 32)). unfold Int32.wrap.
  rewrite Z.mod_eq by lia. lia.
Qed.

Lemma wrap_add_wrap_l (x y : Z) :
  Int32.wrap (Int32.wrap x + y) = Int32.wrap (x + y).
Proof.
  destruct (wrap_decompose x) as [k ->].
  replace (x + k * 2 ^ 32 + y) with (x + y + k * 2 ^ 32) by lia.
  apply wrap_add_multiple.
Qed.

Lemma wrap_add_wrap_r (x y : Z) :
  Int32.wrap (x + Int32.wrap y) = Int32.wrap (x + y).
Proof. rewrite (Z.add_comm x), wrap_add_wrap_l, Z.add_comm. reflexivity. Qed.

Lemma wrap_opp_wrap (x : Z) : Int32.wrap (- Int32.wrap x) = Int32.wrap (- x).
Proof.
  destruct (wrap_decompose x) as [k ->].
  replace (- (x + k * 2 ^ 32)) with (- x + (- k) * 2 ^ 32) by lia.
  apply wrap_add_multiple.
Qed.

(** The value a wrapped result takes, by the side on which the exact
    result leaves the range (one excursion: it lies within [2^32] of it). *)
Lemma wrap_cases (v : Z) :
  - 2 ^ 32 <= v < 2 ^ 32 ->
  Int32.wrap v
  = if v <? Int32.min then v + 2 ^ 32
    else if Int32.max <? v then v - 2 ^ 32 else v.
Proof.
  intros Hv. unfold Int32.min, Int32.max.
  destruct (Z.ltb_spec v (- 2 ^ 31)); [|destruct (Z.ltb_spec (2 ^ 31 - 1) v)].
  - rewrite <- (wrap_add_multiple v 1), Z.mul_1_l. apply wrap_id.
    unfold Int32.in_range, Int32.min, Int32.max. lia.
  - rewrite <- (wrap_add_multiple v (-1)).
    replace (v + -1 * 2 ^ 32) with (v - 2 ^ 32) by lia. apply wrap_id.
    unfold Int32.in_range, Int32.min, Int32.max. lia.
  - apply wrap_id. unfold Int32.in_range, Int32.min, Int32.max. lia.
Qed.

End WrapArithmetic.

(** ** Bitwise complement, negation, addition and subtraction *)

Section ArithmeticProperties.

Import gemmlowp.

Lemma lane_Add (a b : int32x4_t) (i : lane_index) :
  lane i (Add a b) = Int32.wrap (lane i a + lane i b).
Proof. apply lane_lanewise2. Qed.

Lemma lane_Sub (a b : int32x4_t) (i : lane_index) :
  lane i (Sub a b) = Int32.wrap (lane i a - lane i b).
Proof. apply lane_lanewise2. Qed.

Lemma lane_Neg (a : int32x4_t) (i : lane_index) :
  lane i (Neg a) = Int32.wrap (- lane i a).
Proof. apply lane_lanewise1. Qed.

Lemma lane_Dup (x : Z) (i : lane_index) : lane i (Dup x) = x.
Proof. apply lane_vdupq_n_s32. Qed.

Lemma lane_BitAnd (a b : int32x4_t) (i : lane_index) :
  lane i (BitAnd a b) = Z.land (lane i a) (lane i b).
Proof. apply lane_lanewise2. Qed.

Lemma lane_BitOr (a b : int32x4_t) (i : lane_index) :
  lane i (BitOr a b) = Z.lor (lane i a) (lane i b).
Proof. apply lane_lanewise2. Qed.

Lemma lane_BitXor (a b : int32x4_t) (i : lane_index) :
  lane i (BitXor a b) = Z.lxor (lane i a) (lane i b).
Proof. apply lane_lanewise2. Qed.

(** X1. [BitNot], the exclusive or with all ones, is an involution, and
    it exchanges [BitAnd] and [BitOr] (De Morgan), on all registers. *)
Theorem BitNot_involutive_de_morgan (a b : int32x4_t) :
  BitNot (BitNot a) = a
  /\ BitNot (BitAnd a b) = BitOr (BitNot a) (BitNot b)
  /\ BitNot (BitOr a b) = BitAnd (BitNot a) (BitNot b).
Proof.
  repeat split; apply int32x4_ext; intros i;
    rewrite ?lane_BitNot, ?lane_BitAnd, ?lane_BitOr, ?lane_BitNot.
  - apply Z.lnot_involutive.
  - apply Z.lnot_land.
  - apply Z.lnot_lor.
Qed.

(** X2. [Neg] is the two's-complement negation: complement every bit and
    add one; and [Sub] is [Add] of the negation.  Both on all registers. *)
Theorem Neg_is_complement_plus_one (a b : int32x4_t) :
  Neg a = Add (BitNot a) (Dup 1)
  /\ Sub a b = Add a (Neg b).
Proof.
  split; apply int32x4_ext; intros i.
  - rewrite lane_Neg, lane_Add, lane_BitNot, lane_Dup.
    f_equal. unfold Z.lnot. lia.
  - rewrite lane_Sub, lane_Add, lane_Neg, wrap_add_wrap_r.
    f_equal.
Qed.

(** X3. [Add] is commutative and associative on all registers, although
    each intermediate sum is cut to 32 bits. *)
Theorem Add_commutative_associative (a b c : int32x4_t) :
  Add a b = Add b a
  /\ Add (Add a b) c = Add a (Add b c).
Proof.
  split; apply int32x4_ext; intros i; rewrite !lane_Add.
  - f_equal. lia.
  - rewrite wrap_add_wrap_l, wrap_add_wrap_r. f_equal. lia.
Qed.

(** X4. On a register of signed 32-bit lanes, [Sub] undoes [Add] even
    when the sum wrapped, [Neg] is an involution, and a register plus its
    negation is zero. *)
Theorem Add_Sub_Neg_inverse (a b : int32x4_t) :
  wf a ->
  Sub (Add a b) b = a
  /\ Add (Sub a b) b = a
  /\ Neg (Neg a) = a
  /\ Add a (Neg a) = Dup 0.
Proof.
  intros Ha.
  repeat split; apply int32x4_ext; intros i;
    rewrite ?lane_Sub, ?lane_Add, ?lane_Neg, ?lane_Sub, ?lane_Add, ?lane_Dup.
  - rewrite <- Z.add_opp_r, wrap_add_wrap_l.
    replace (lane i a + lane i b + - lane i b) with (lane i a) by lia.
    apply wrap_id, Ha.
  - rewrite wrap_add_wrap_l.
    replace (lane i a - lane i b + lane i b) with (lane i a) by lia.
    apply wrap_id, Ha.
  - rewrite wrap_opp_wrap, Z.opp_involutive. apply wrap_id, Ha.
  - rewrite wrap_add_wrap_r, Z.add_opp_diag_r. reflexivity.
Qed.

Lemma Add_Sub_Neg_inverse_witness :
  wf v_extremes
  /\ Sub (Add v_extremes v_mixed) v_mixed = v_extremes
  /\ Add (Sub v_extremes v_mixed) v_mixed = v_extremes
  /\ Neg (Neg v_extremes) = v_extremes
  /\ Add v_extremes (Neg v_extremes) = Dup 0.
Proof.
  assert (Ha : wf v_extremes) by (apply wfb_spec; reflexivity).
  split; [exact Ha|].
  exact (Add_Sub_Neg_inverse v_extremes v_mixed Ha).
Defined.

(** X5. On signed 32-bit lanes [Neg] is the exact opposite of every lane
    but the minimum, which it leaves unchanged; zero and the minimum are
    its only fixed points. *)
Theorem Neg_exact_except_min (a : int32x4_t) (i : lane_index) :
  wf a ->
  (lane i a <> Int32.min -> lane i (Neg a) = - lane i a)
  /\ (lane i a = Int32.min -> lane i (Neg a) = Int32.min)
  /\ (lane i (Neg a) = lane i a <-> lane i a = 0 \/ lane i a = Int32.min).
Proof.
  intros Ha. specialize (Ha i). rewrite lane_Neg.
  unfold Int32.in_range, Int32.min, Int32.max in *.
  assert (Hm : Int32.wrap (- - 2 ^ 31) = - 2 ^ 31) by reflexivity.
  assert (He : lane i a <> - 2 ^ 31 -> Int32.wrap (- lane i a) = - lane i a).
  { intros Hn. apply wrap_id.
    unfold Int32.in_range, Int32.min, Int32.max. lia. }
  split; [exact He|]. split.
  - intros ->. exact Hm.
  - destruct (Z.eq_dec (lane i a) (- 2 ^ 31)) as [E | E].
    + rewrite E, Hm. tauto.
    + rewrite (He E). lia.
Qed.

Lemma Neg_exact_except_min_witness :
  wf v_extremes
  /\ lane L1 (Neg v_extremes) = - lane L1 v_extremes
  /\ lane L0 (Neg v_extremes) = Int32.min.
Proof.
  assert (Ha : wf v_extremes) by (apply wfb_spec; reflexivity).
  split; [exact Ha|]. split.
  - apply (proj1 (Neg_exact_except_min v_extremes L1 Ha)). discriminate.
  - apply (proj1 (proj2 (Neg_exact_except_min v_extremes L0 Ha))). reflexivity.
Defined.

(** X6. On signed 32-bit lanes, [Add] and [Sub] give the exact result when
    it fits in 32 bits, and otherwise the exact result moved by [2^32]
    back into the range: down after an overflow, up after an underflow. *)
Theorem Add_Sub_overflow (a b : int32x4_t) (i : lane_index) :
  wf a -> wf b ->
  lane i (Add a b)
  = (if lane i a + lane i b <? Int32.min then lane i a + lane i b + 2 ^ 32
     else if Int32.max <? lane i a + lane i b
          then lane i a + lane i b - 2 ^ 32
          else lane i a + lane i b)
  /\ lane i (Sub a b)
     = (if lane i a - lane i b <? Int32.min then lane i a - lane i b + 2 ^ 32
        else if Int32.max <? lane i a - lane i b
             then lane i a - lane i b - 2 ^ 32
             else lane i a - lane i b).
Proof.
  intros Ha Hb. specialize (Ha i). specialize (Hb i).
  rewrite lane_Add, lane_Sub.
  unfold Int32.in_range, Int32.min, Int32.max in Ha, Hb.
  split; apply wrap_cases; lia.
Qed.

Lemma Add_Sub_overflow_witness :
  wf v_extremes /\ wf v_mixed
  /\ lane L1 (Add v_extremes v_mixed) = Int32.max + Int32.max - 2 ^ 32
  /\ lane L3 (Sub v_extremes v_mixed) = -7 - 2.
Proof.
  assert (Ha : wf v_extremes) by (apply wfb_spec; reflexivity).
  assert (Hb : wf v_mixed) by (apply wfb_spec; reflexivity).
  split; [exact Ha|]. split; [exact Hb|]. split.
  - exact (proj1 (Add_Sub_overflow v_extremes v_mixed L1 Ha Hb)).
  - exact (proj2 (Add_Sub_overflow v_extremes v_mixed L3 Ha Hb)).
Defined.

End ArithmeticProperties.

(** ** Comparisons, masks and selection *)

Section MaskProperties.

Import gemmlowp.

Lemma mask_of_land (c d : bool) :
  Z.land (Scalar.mask_of c) (Scalar.mask_of d) = Scalar.mask_of (c && d).
Proof. destruct c, d; reflexivity. Qed.

Lemma mask_of_lor (c d : bool) :
  Z.lor (Scalar.mask_of c) (Scalar.mask_of d) = Scalar.mask_of (c || d).
Proof. destruct c, d; reflexivity. Qed.

Lemma mask_of_lxor (c d : bool) :
  Z.lxor (Scalar.mask_of c) (Scalar.mask_of d) = Scalar.mask_of (xorb c d).
Proof. destruct c, d; reflexivity. Qed.

Lemma mask_of_lnot (c : bool) :
  Z.lnot (Scalar.mask_of c) = Scalar.mask_of (negb c).
Proof. destruct c; reflexivity. Qed.

(** A mask lane of a well-formed register is the mask of a boolean. *)
Lemma mask_lane_of_bool (v : int32x4_t) (i : lane_index) :
  wf v -> mask_vector v ->
  lane i v = Scalar.mask_of (Int32.all_ones (lane i v)).
Proof.
  intros Hw Hm.
  destruct (is_mask_cases _ (Hw i) (Hm i)) as [-> | ->]; reflexivity.
Qed.

Lemma to_bool_mask_of (c : bool) : to_bool (Scalar.mask_of c) = c.
Proof. destruct c; reflexivity. Qed.

Lemma All_lanes (a : int32x4_t) :
  All a = to_bool (lane L0 a) && to_bool (lane L1 a)
          && to_bool (lane L2 a) && to_bool (lane L3 a).
Proof. reflexivity. Qed.

Lemma Any_lanes (a : int32x4_t) :
  Any a = to_bool (lane L0 a) || to_bool (lane L1 a)
          || to_bool (lane L2 a) || to_bool (lane L3 a).
Proof. reflexivity. Qed.

(** Decide every comparison of [x] and [y] in the goal and compute. *)
Ltac order_cases x y :=
  destruct (Z.ltb_spec x y), (Z.ltb_spec y x), (Z.leb_spec x y),
    (Z.leb_spec y x), (Z.eqb_spec x y);
  try lia; reflexivity.

(** X7. The comparisons are consistent with one another on all registers:
    less-than is greater-than with the operands exchanged, each ordering
    test is the complement of the opposite strict or weak test, and
    greater-or-equal is greater-than or equal. *)
Theorem comparisons_consistent (a b : int32x4_t) :
  MaskIfLessThan a b = MaskIfGreaterThan b a
  /\ MaskIfLessThanOrEqual a b = MaskIfGreaterThanOrEqual b a
  /\ MaskIfGreaterThanOrEqual a b = BitNot (MaskIfLessThan a b)
  /\ MaskIfLessThanOrEqual a b = BitNot (MaskIfGreaterThan a b)
  /\ MaskIfGreaterThanOrEqual a b
     = BitOr (MaskIfGreaterThan a b) (MaskIfEqual a b)
  /\ MaskIfNotEqual a b
     = BitOr (MaskIfLessThan a b) (MaskIfGreaterThan a b).
Proof.
  repeat match goal with |- _ /\ _ => split end;
    apply int32x4_ext; intros i;
    rewrite ?lane_BitNot, ?lane_BitOr, ?lane_MaskIfLessThan,
      ?lane_MaskIfGreaterThan, ?lane_MaskIfLessThanOrEqual,
      ?lane_MaskIfGreaterThanOrEqual, ?lane_MaskIfEqual,
      ?lane_MaskIfNotEqual;
    order_cases (lane i a) (lane i b).
Qed.

(** X8. Trichotomy: in every lane exactly one of less-than, equal and
    greater-than is set; the three masks cover the register and are
    pairwise disjoint. *)
Theorem comparisons_trichotomy (a b : int32x4_t) :
  BitOr (BitOr (MaskIfLessThan a b) (MaskIfEqual a b)) (MaskIfGreaterThan a b)
  = Dup (-1)
  /\ BitAnd (MaskIfLessThan a b) (MaskIfEqual a b) = Dup 0
  /\ BitAnd (MaskIfLessThan a b) (MaskIfGreaterThan a b) = Dup 0
  /\ BitAnd (MaskIfEqual a b) (MaskIfGreaterThan a b) = Dup 0.
Proof.
  repeat match goal with |- _ /\ _ => split end;
    apply int32x4_ext; intros i;
    rewrite ?lane_BitOr, ?lane_BitAnd, ?lane_BitOr, ?lane_MaskIfLessThan,
      ?lane_MaskIfGreaterThan, ?lane_MaskIfEqual, ?lane_Dup;
    order_cases (lane i a) (lane i b).
Qed.

(** X9. Equality can be tested through the difference: [MaskIfEqual a b]
    is [MaskIfZero] of [BitXor a b] on all registers, and of [Sub a b] on
    registers of signed 32-bit lanes, a wrapped difference being zero only
    for equal lanes. *)
Theorem MaskIfEqual_by_difference (a b : int32x4_t) :
  wf a -> wf b ->
  MaskIfEqual a b = MaskIfZero (BitXor a b)
  /\ MaskIfEqual a b = MaskIfZero (Sub a b)
  /\ MaskIfNotEqual a b = MaskIfNonZero (Sub a b).
Proof.
  intros Ha Hb.
  assert (Hs : forall i, (lane i a =? lane i b) = (lane i (Sub a b) =? 0)).
  { intros i. rewrite lane_Sub.
    specialize (Ha i). specialize (Hb i).
    unfold Int32.in_range, Int32.min, Int32.max in Ha, Hb.
    rewrite wrap_cases by lia. unfold Int32.min, Int32.max.
    destruct (Z.eqb_spec (lane i a) (lane i b)) as [E | E].
    - rewrite E, Z.sub_diag. reflexivity.
    - symmetry. apply Z.eqb_neq.
      destruct (Z.ltb_spec (lane i a - lane i b) (- 2 ^ 31));
        [lia | destruct (Z.ltb_spec (2 ^ 31 - 1) (lane i a - lane i b)); lia]. }
  repeat split; apply int32x4_ext; intros i;
    rewrite ?lane_MaskIfEqual, ?lane_MaskIfZero, ?lane_MaskIfNotEqual,
      ?lane_MaskIfNonZero, ?lane_BitXor; f_equal.
  - destruct (Z.eqb_spec (lane i a) (lane i b)) as [E | E].
    + rewrite E, Z.lxor_nilpotent. reflexivity.
    + symmetry. apply Z.eqb_neq. intros H. apply Z.lxor_eq in H. tauto.
  - apply Hs.
  - f_equal. apply Hs.
Qed.

Lemma MaskIfEqual_by_difference_witness :
  wf v_extremes /\ wf v_mixed
  /\ MaskIfEqual v_extremes v_mixed = MaskIfZero (BitXor v_extremes v_mixed)
  /\ MaskIfEqual v_extremes v_mixed = MaskIfZero (Sub v_extremes v_mixed)
  /\ MaskIfNotEqual v_extremes v_mixed
     = MaskIfNonZero (Sub v_extremes v_mixed).
Proof.
  assert (Ha : wf v_extremes) by (apply wfb_spec; reflexivity).
  assert (Hb : wf v_mixed) by (apply wfb_spec; reflexivity).
  split; [exact Ha|]. split; [exact Hb|].
  exact (MaskIfEqual_by_difference v_extremes v_mixed Ha Hb).
Defined.

(** X10. The mask combinators keep masks well formed: on mask vectors of
    signed 32-bit lanes, [BitAnd], [BitOr], [BitXor], [BitNot] and
    [SelectUsingMask] return mask vectors. *)
Theorem mask_combinators_keep_masks (m n p : int32x4_t) :
  wf m -> wf n -> wf p ->
  mask_vector m -> mask_vector n -> mask_vector p ->
  mask_vector (BitAnd m n) /\ mask_vector (BitOr m n)
  /\ mask_vector (BitXor m n) /\ mask_vector (BitNot m)
  /\ mask_vector (SelectUsingMask m n p).
Proof.
  intros Wm Wn Wp Mm Mn Mp.
  repeat match goal with |- _ /\ _ => split end; intros i;
    rewrite ?lane_SelectUsingMask, ?lane_BitAnd, ?lane_BitOr, ?lane_BitXor,
      ?lane_BitNot;
    rewrite (mask_lane_of_bool m i Wm Mm);
    try rewrite (mask_lane_of_bool n i Wn Mn);
    try rewrite (mask_lane_of_bool p i Wp Mp);
    rewrite ?mask_of_lnot, ?mask_of_land, ?mask_of_lor, ?mask_of_lxor;
    apply is_mask_mask_of.
Qed.

Lemma mask_combinators_keep_masks_witness :
  wf v_mask /\ wf v_zero /\ mask_vector v_mask /\ mask_vector v_zero
  /\ mask_vector (BitXor v_mask v_zero)
  /\ mask_vector (SelectUsingMask v_mask v_zero v_mask).
Proof.
  assert (Hw : wf v_mask) by (apply wfb_spec; reflexivity).
  assert (Hm : mask_vector v_mask) by (intros i; destruct i; reflexivity).
  assert (Hw0 : wf v_zero) by (apply wfb_spec; reflexivity).
  assert (Hm0 : mask_vector v_zero) by (intros i; destruct i; reflexivity).
  split; [exact Hw|]. split; [exact Hw0|]. split; [exact Hm|].
  split; [exact Hm0|]. split.
  - exact (proj1 (proj2 (proj2
      (mask_combinators_keep_masks v_mask v_zero v_mask Hw Hw0 Hw Hm Hm0 Hm)))).
  - exact (proj2 (proj2 (proj2 (proj2
      (mask_combinators_keep_masks v_mask v_zero v_mask Hw Hw0 Hw Hm Hm0 Hm))))).
Defined.

(** X11. [All] and [Any] test lanes for being non-zero, so they are dual
    through [MaskIfZero], and [MaskIfNonZero] turns any register into a
    mask with the same [All] and [Any]; [All] implies [Any]. *)
Theorem All_Any_duality (a : int32x4_t) :
  All a = negb (Any (MaskIfZero a))
  /\ Any a = negb (All (MaskIfZero a))
  /\ All (MaskIfNonZero a) = All a
  /\ Any (MaskIfNonZero a) = Any a
  /\ (All a = true -> Any a = true).
Proof.
  rewrite !All_lanes, !Any_lanes, !lane_MaskIfZero, !lane_MaskIfNonZero,
    !to_bool_mask_of.
  unfold to_bool.
  destruct (lane L0 a =? 0), (lane L1 a =? 0), (lane L2 a =? 0),
    (lane L3 a =? 0); repeat split; simpl; congruence.
Qed.

Lemma All_Any_duality_witness :
  All v_extremes = negb (Any (MaskIfZero v_extremes))
  /\ Any v_extremes = true.
Proof.
  split.
  - exact (proj1 (All_Any_duality v_extremes)).
  - apply (proj2 (proj2 (proj2 (proj2 (All_Any_duality v_extremes))))).
    reflexivity.
Defined.

(** X12. On mask vectors of signed 32-bit lanes [Any] distributes over
    [BitOr] and [All] over [BitAnd] (on other registers two non-zero
    lanes can have a zero conjunction). *)
Theorem All_Any_distribute (m n : int32x4_t) :
  wf m -> wf n -> mask_vector m -> mask_vector n ->
  Any (BitOr m n) = Any m || Any n
  /\ All (BitAnd m n) = All m && All n.
Proof.
  intros Wm Wn Mm Mn.
  rewrite !All_lanes, !Any_lanes, !lane_BitOr, !lane_BitAnd.
  rewrite (mask_lane_of_bool m L0 Wm Mm), (mask_lane_of_bool m L1 Wm Mm),
    (mask_lane_of_bool m L2 Wm Mm), (mask_lane_of_bool m L3 Wm Mm),
    (mask_lane_of_bool n L0 Wn Mn), (mask_lane_of_bool n L1 Wn Mn),
    (mask_lane_of_bool n L2 Wn Mn), (mask_lane_of_bool n L3 Wn Mn).
  rewrite !mask_of_lor, !mask_of_land, !to_bool_mask_of.
  destruct (Int32.all_ones (lane L0 m)), (Int32.all_ones (lane L1 m)),
    (Int32.all_ones (lane L2 m)), (Int32.all_ones (lane L3 m)),
    (Int32.all_ones (lane L0 n)), (Int32.all_ones (lane L1 n)),
    (Int32.all_ones (lane L2 n)), (Int32.all_ones (lane L3 n));
    split; reflexivity.
Qed.

Lemma All_Any_distribute_witness :
  wf v_mask /\ wf v_zero /\ mask_vector v_mask /\ mask_vector v_zero
  /\ Any (BitOr v_mask v_zero) = Any v_mask || Any v_zero
  /\ All (BitAnd v_mask v_zero) = All v_mask && All v_zero.
Proof.
  assert (Hw : wf v_mask) by (apply wfb_spec; reflexivity).
  assert (Hm : mask_vector v_mask) by (intros i; destruct i; reflexivity).
  assert (Hw0 : wf v_zero) by (apply wfb_spec; reflexivity).
  assert (Hm0 : mask_vector v_zero) by (intros i; destruct i; reflexivity).
  split; [exact Hw|]. split; [exact Hw0|]. split; [exact Hm|].
  split; [exact Hm0|].
  exact (All_Any_distribute v_mask v_zero Hw Hw0 Hm Hm0).
Defined.

End MaskProperties.

(** ** Selection *)

Section SelectProperties.

Import gemmlowp.

(** X13. Selecting with a comparison computes the lane-wise maximum and
    minimum: [SelectUsingMask (MaskIfGreaterThan a b) a b] holds the larger
    lane and [SelectUsingMask (MaskIfLessThan a b) a b] the smaller one. *)
Theorem select_by_comparison_max_min (a b : int32x4_t) (i : lane_index) :
  lane i (SelectUsingMask (MaskIfGreaterThan a b) a b)
  = Z.max (lane i a) (lane i b)
  /\ lane i (SelectUsingMask (MaskIfLessThan a b) a b)
     = Z.min (lane i a) (lane i b).
Proof.
  rewrite !lane_SelectUsingMask, lane_MaskIfGreaterThan, lane_MaskIfLessThan.
  split.
  - destruct (Z.ltb_spec (lane i b) (lane i a)); simpl Scalar.mask_of.
    + rewrite Z.land_m1_l. change (Z.lnot (-1)) with 0.
      rewrite Z.land_0_l, Z.lor_0_r. lia.
    + rewrite Z.land_0_l. change (Z.lnot 0) with (-1).
      rewrite Z.land_m1_l, Z.lor_0_l. lia.
  - destruct (Z.ltb_spec (lane i a) (lane i b)); simpl Scalar.mask_of.
    + rewrite Z.land_m1_l. change (Z.lnot (-1)) with 0.
      rewrite Z.land_0_l, Z.lor_0_r. lia.
    + rewrite Z.land_0_l. change (Z.lnot 0) with (-1).
      rewrite Z.land_m1_l, Z.lor_0_l. lia.
Qed.

(** X14. On a register that is not a mask, [SelectUsingMask] selects bit
    by bit: bit [k] of a result lane is bit [k] of [then_val] where bit [k]
    of the mask lane is set and bit [k] of [else_val] where it is clear. *)
Theorem SelectUsingMask_bitwise
  (if_mask then_val else_val : int32x4_t) (i : lane_index) (k : Z) :
  0 <= k ->
  Z.testbit (lane i (SelectUsingMask if_mask then_val else_val)) k
  = if Z.testbit (lane i if_mask) k then Z.testbit (lane i then_val) k
    else Z.testbit (lane i else_val) k.
Proof.
  intros Hk. rewrite lane_SelectUsingMask.
  rewrite Z.lor_spec, !Z.land_spec, Z.lnot_spec by assumption.
  destruct (Z.testbit (lane i if_mask) k), (Z.testbit (lane i then_val) k),
    (Z.testbit (lane i else_val) k); reflexivity.
Qed.

Lemma SelectUsingMask_bitwise_witness :
  0 <= 1
  /\ Z.testbit (lane L2 (SelectUsingMask v_mixed v_extremes v_zero)) 1
     = Z.testbit (lane L2 v_extremes) 1.
Proof.
  split; [discriminate|].
  exact (SelectUsingMask_bitwise v_mixed v_extremes v_zero L2 1
           ltac:(discriminate)).
Defined.

(** X15. Consequences for any mask register: selecting between a value and
    itself returns it, complementing the mask exchanges the two values, and
    the constant masks select one side throughout. *)
Theorem SelectUsingMask_identities (m t e : int32x4_t) :
  SelectUsingMask m t t = t
  /\ SelectUsingMask (BitNot m) t e = SelectUsingMask m e t
  /\ SelectUsingMask (Dup (-1)) t e = t
  /\ SelectUsingMask (Dup 0) t e = e.
Proof.
  repeat split; apply int32x4_ext; intros i; apply Z.bits_inj'; intros k Hk;
    rewrite !lane_SelectUsingMask, ?lane_BitNot, ?lane_Dup;
    rewrite ?Z.lor_spec, ?Z.land_spec, ?Z.lnot_spec, ?Z.lnot_spec,
      ?Z.bits_m1, ?Z.bits_0 by assumption;
    destruct (Z.testbit (lane i m) k), (Z.testbit (lane i t) k),
      (Z.testbit (lane i e) k); reflexivity.
Qed.

End SelectProperties.

(** ** The rounding half sum *)

Section HalfSumProperties.

Import gemmlowp.

(** X16. On signed 32-bit lanes [RoundingHalfSum] is commutative, returns
    [a] for the mean of [a] and [a], and is monotone in its second operand
    (hence, being commutative, in both). *)
Theorem RoundingHalfSum_algebra (a b c : int32x4_t) (i : lane_index) :
  wf a -> wf b -> wf c ->
  RoundingHalfSum a b = RoundingHalfSum b a
  /\ RoundingHalfSum a a = a
  /\ (lane i b <= lane i c ->
      lane i (RoundingHalfSum a b) <= lane i (RoundingHalfSum a c)).
Proof.
  intros Ha Hb Hc. split; [|split].
  - apply int32x4_ext. intros j.
    rewrite !lane_RoundingHalfSum by assumption. f_equal. lia.
  - apply int32x4_ext. intros j.
    rewrite lane_RoundingHalfSum by assumption.
    pose proof (Z.mul_div_le (lane j a + lane j a + 1) 2 ltac:(lia)).
    pose proof (Z.mul_succ_div_gt (lane j a + lane j a + 1) 2 ltac:(lia)).
    lia.
  - intros Hle. rewrite !lane_RoundingHalfSum by assumption.
    apply Z.div_le_mono; lia.
Qed.

Lemma RoundingHalfSum_algebra_witness :
  wf v_extremes /\ wf v_zero /\ wf v_mixed
  /\ RoundingHalfSum v_extremes v_zero = RoundingHalfSum v_zero v_extremes
  /\ RoundingHalfSum v_extremes v_extremes = v_extremes
  /\ lane L2 (RoundingHalfSum v_extremes v_zero)
     <= lane L2 (RoundingHalfSum v_extremes v_mixed).
Proof.
  assert (Ha : wf v_extremes) by (apply wfb_spec; reflexivity).
  assert (Hb : wf v_zero) by (apply wfb_spec; reflexivity).
  assert (Hc : wf v_mixed) by (apply wfb_spec; reflexivity).
  split; [exact Ha|]. split; [exact Hb|]. split; [exact Hc|].
  split; [|split].
  - exact (proj1 (RoundingHalfSum_algebra v_extremes v_zero v_mixed L2 Ha Hb Hc)).
  - exact (proj1 (proj2
      (RoundingHalfSum_algebra v_extremes v_zero v_mixed L2 Ha Hb Hc))).
  - apply (proj2 (proj2
      (RoundingHalfSum_algebra v_extremes v_zero v_mixed L2 Ha Hb Hc))).
    discriminate.
Defined.

End HalfSumProperties.

(** ** The fixed-point multiplication *)

Section HighMulProperties.

Import gemmlowp.

Lemma SignedSat_monotone (u v : Z) :
  u <= v -> Int32.SignedSat u <= Int32.SignedSat v.
Proof. intros H. rewrite !SignedSat_clamp. unfold Scalar.clamp. lia. Qed.

Lemma lane_vqrdmulhq_s32 (a b : int32x4_t) (i : lane_index) :
  lane i (SaturatingRoundingDoublingHighMul a b)
  = Int32.SignedSat
      (Z.shiftr (2 * lane i a * lane i b + Z.shiftl 1 31) 32).
Proof. apply lane_lanewise2. Qed.

(** X17. [SaturatingRoundingDoublingHighMul] is commutative and has zero
    as an absorbing element, on all registers. *)
Theorem SaturatingRoundingDoublingHighMul_commutative (a b : int32x4_t) :
  SaturatingRoundingDoublingHighMul a b = SaturatingRoundingDoublingHighMul b a
  /\ SaturatingRoundingDoublingHighMul a (Dup 0) = Dup 0.
Proof.
  split; apply int32x4_ext; intros i; rewrite !lane_vqrdmulhq_s32.
  - do 3 f_equal. lia.
  - rewrite !lane_Dup, Z.mul_0_r. reflexivity.
Qed.

(** X18. Multiplying by the minimum, the fixed-point [-1], is a saturating
    negation: every lane is negated exactly, except the minimum, which
    becomes the maximum. *)
Theorem SaturatingRoundingDoublingHighMul_by_min
  (a : int32x4_t) (i : lane_index) :
  wf a ->
  lane i (SaturatingRoundingDoublingHighMul a (Dup Int32.min))
  = if lane i a =? Int32.min then Int32.max else - lane i a.
Proof.
  intros Ha.
  assert (Hm : wf (Dup Int32.min)).
  { intros j. rewrite lane_Dup. apply in_rangeb_spec. reflexivity. }
  rewrite lane_SaturatingRoundingDoublingHighMul by assumption.
  rewrite lane_Dup. unfold Scalar.SaturatingRoundingDoublingHighMul.
  rewrite Z.eqb_refl, andb_true_r.
  destruct (lane i a =? Int32.min); [reflexivity|].
  replace (2 * lane i a * Int32.min) with (- lane i a * 2 ^ 32)
    by (unfold Int32.min; lia).
  apply round_half_up_multiple. reflexivity.
Qed.

Lemma SaturatingRoundingDoublingHighMul_by_min_witness :
  wf v_extremes
  /\ lane L0 (SaturatingRoundingDoublingHighMul v_extremes (Dup Int32.min))
     = Int32.max
  /\ lane L3 (SaturatingRoundingDoublingHighMul v_extremes (Dup Int32.min))
     = 7.
Proof.
  assert (Ha : wf v_extremes) by (apply wfb_spec; reflexivity).
  split; [exact Ha|]. split.
  - exact (SaturatingRoundingDoublingHighMul_by_min v_extremes L0 Ha).
  - exact (SaturatingRoundingDoublingHighMul_by_min v_extremes L3 Ha).
Defined.

(** X19. The product never exceeds either factor in magnitude: both
    operands denote numbers of magnitude at most one. *)
Theorem SaturatingRoundingDoublingHighMul_magnitude
  (a b : int32x4_t) (i : lane_index) :
  wf a -> wf b ->
  Z.abs (lane i (SaturatingRoundingDoublingHighMul a b)) <= Z.abs (lane i a)
  /\ Z.abs (lane i (SaturatingRoundingDoublingHighMul a b))
     <= Z.abs (lane i b).
Proof.
  intros Ha Hb.
  rewrite lane_SaturatingRoundingDoublingHighMul by assumption.
  specialize (Ha i). specialize (Hb i).
  set (x := lane i a) in *. set (y := lane i b) in *.
  unfold Scalar.SaturatingRoundingDoublingHighMul.
  destruct (Z.eqb_spec x Int32.min) as [Ex | Ex];
    [destruct (Z.eqb_spec y Int32.min) as [Ey | Ey] |]; cbn [andb].
  - rewrite Ex, Ey. split; discriminate.
  - pose proof (round_half_up_nearest (2 * x * y) (2 ^ 32) ltac:(lia)) as Hr.
    change (2 ^ Int32.bitwidth) with (2 ^ 32).
    set (r := Scalar.round_half_up (2 * x * y) (2 ^ 32)) in *.
    replace (2 * x * y) with (2 * (x * y)) in Hr by lia.
    unfold nearest_ties_up, Int32.in_range, Int32.min, Int32.max in *.
    subst x. rewrite Ex in *. split; lia.
  - pose proof (round_half_up_nearest (2 * x * y) (2 ^ 32) ltac:(lia)) as Hr.
    change (2 ^ Int32.bitwidth) with (2 ^ 32).
    set (r := Scalar.round_half_up (2 * x * y) (2 ^ 32)) in *.
    replace (2 * x * y) with (2 * (x * y)) in Hr by lia.
    unfold nearest_ties_up, Int32.in_range, Int32.min, Int32.max in *.
    assert (Hx : - (Z.abs x * 2 ^ 31) <= x * y <= Z.abs x * 2 ^ 31) by nia.
    assert (Hy : - (Z.abs y * 2 ^ 31) <= x * y <= Z.abs y * 2 ^ 31) by nia.
    split; lia.
Qed.

Lemma SaturatingRoundingDoublingHighMul_magnitude_witness :
  wf v_extremes /\ wf v_mixed
  /\ Z.abs (lane L1 (SaturatingRoundingDoublingHighMul v_extremes v_mixed))
     <= Z.abs (lane L1 v_extremes).
Proof.
  assert (Ha : wf v_extremes) by (apply wfb_spec; reflexivity).
  assert (Hb : wf v_mixed) by (apply wfb_spec; reflexivity).
  split; [exact Ha|]. split; [exact Hb|].
  exact (proj1
    (SaturatingRoundingDoublingHighMul_magnitude v_extremes v_mixed L1 Ha Hb)).
Defined.

(** X20. With a non-negative multiplier the product is monotone in the
    other factor, on all registers. *)
Theorem SaturatingRoundingDoublingHighMul_monotone
  (a a' b : int32x4_t) (i : lane_index) :
  0 <= lane i b -> lane i a <= lane i a' ->
  lane i (SaturatingRoundingDoublingHighMul a b)
  <= lane i (SaturatingRoundingDoublingHighMul a' b).
Proof.
  intros Hb Hle. rewrite !lane_vqrdmulhq_s32.
  apply SignedSat_monotone. rewrite !Z.shiftr_div_pow2 by lia.
  apply Z.div_le_mono; [lia | nia].
Qed.

Lemma SaturatingRoundingDoublingHighMul_monotone_witness :
  0 <= lane L1 v_mixed /\ lane L1 v_zero <= lane L1 v_extremes
  /\ lane L1 (SaturatingRoundingDoublingHighMul v_zero v_mixed)
     <= lane L1 (SaturatingRoundingDoublingHighMul v_extremes v_mixed).
Proof.
  assert (Hb : 0 <= lane L1 v_mixed) by discriminate.
  assert (Hle : lane L1 v_zero <= lane L1 v_extremes) by discriminate.
  split; [exact Hb|]. split; [exact Hle|].
  exact (SaturatingRoundingDoublingHighMul_monotone
           v_zero v_extremes v_mixed L1 Hb Hle).
Defined.

End HighMulProperties.

(** ** Multiplication by a power of two *)

Section PowerOfTwoProperties.

Import gemmlowp.

Lemma lane_POT_positive (e : Z) (x y : int32x4_t) (i : lane_index) :
  0 < e -> SaturatingRoundingMultiplyByPOT e x = Some y ->
  lane i y = Scalar.clamp (lane i x * 2 ^ e).
Proof.
  intros He H. rewrite POT_positive in H by assumption.
  injection H as <-. apply lane_vqshlq_n_s32. lia.
Qed.

Lemma lane_POT_negative (e : Z) (x y : int32x4_t) (i : lane_index) :
  e < 0 -> wf x -> SaturatingRoundingMultiplyByPOT e x = Some y ->
  lane i y = Scalar.round_half_up (lane i x) (2 ^ (- e)).
Proof.
  intros He Hx H. rewrite POT_negative in H by assumption.
  injection H as <-. apply lane_vrshrq_n_s32; [lia | assumption].
Qed.

Lemma clamp_clamp_mul (v n : Z) :
  1 <= n -> Scalar.clamp (Scalar.clamp v * n) = Scalar.clamp (v * n).
Proof.
  intros Hn. unfold Scalar.clamp, Int32.min, Int32.max.
  destruct (Z_lt_le_dec v (- 2 ^ 31)); [|destruct (Z_lt_le_dec (2 ^ 31 - 1) v)].
  - replace (Z.max (- 2 ^ 31) (Z.min (2 ^ 31 - 1) v)) with (- 2 ^ 31) by lia.
    assert (v * n <= v) by nia. assert (- 2 ^ 31 * n <= - 2 ^ 31) by nia. lia.
  - replace (Z.max (- 2 ^ 31) (Z.min (2 ^ 31 - 1) v)) with (2 ^ 31 - 1) by lia.
    destruct (Z.eq_dec n 1) as [-> | Hn1]; [lia|].
    assert (v <= v * n) by nia.
    assert (2 * (2 ^ 31 - 1) <= (2 ^ 31 - 1) * n) by nia. lia.
  - replace (Z.max (- 2 ^ 31) (Z.min (2 ^ 31 - 1) v)) with v by lia.
    reflexivity.
Qed.

(** X21. Saturating left shifts compose: shifting by [e1 > 0] and then by
    [e2 > 0] is shifting by [e1 + e2], on all registers, the first
    saturation included. *)
Theorem POT_left_shifts_compose (e1 e2 : Z) (x : int32x4_t) :
  0 < e1 -> 0 < e2 ->
  exists y z,
    SaturatingRoundingMultiplyByPOT e1 x = Some y
    /\ SaturatingRoundingMultiplyByPOT e2 y = Some z
    /\ SaturatingRoundingMultiplyByPOT (e1 + e2) x = Some z.
Proof.
  intros H1 H2. eexists. eexists.
  split; [apply POT_positive; assumption|].
  split; [apply POT_positive; assumption|].
  rewrite POT_positive by lia. f_equal. apply int32x4_ext. intros i.
  rewrite !lane_vqshlq_n_s32 by lia.
  rewrite Z.pow_add_r, Z.mul_assoc by lia.
  symmetry. apply clamp_clamp_mul.
  pose proof (pow2_pos e2 ltac:(lia)). lia.
Qed.

Lemma POT_left_shifts_compose_witness :
  0 < 1 /\ 0 < 2
  /\ exists y z,
       SaturatingRoundingMultiplyByPOT 1 v_mixed_small = Some y
       /\ SaturatingRoundingMultiplyByPOT 2 y = Some z
       /\ SaturatingRoundingMultiplyByPOT (1 + 2) v_mixed_small = Some z.
Proof.
  assert (H1 : 0 < 1) by reflexivity.
  assert (H2 : 0 < 2) by reflexivity.
  split; [exact H1|]. split; [exact H2|].
  exact (POT_left_shifts_compose 1 2 v_mixed_small H1 H2).
Defined.

(** X22. The saturating left shift keeps the sign of every lane and keeps
    zero, on all registers, where a plain shift cut to 32 bits could flip
    the sign. *)
Theorem POT_left_shift_sign (e : Z) (x : int32x4_t) (i : lane_index) :
  0 < e ->
  exists y,
    SaturatingRoundingMultiplyByPOT e x = Some y
    /\ (0 < lane i x -> 0 < lane i y)
    /\ (lane i x < 0 -> lane i y < 0)
    /\ (lane i x = 0 -> lane i y = 0).
Proof.
  intros He. eexists. split; [apply POT_positive; assumption|].
  pose proof (pow2_pos e ltac:(lia)) as Hp.
  rewrite lane_vqshlq_n_s32 by lia.
  unfold Scalar.clamp, Int32.min, Int32.max.
  repeat split.
  - intros H. assert (0 < lane i x * 2 ^ e) by nia. lia.
  - intros H. assert (lane i x * 2 ^ e < 0) by nia. lia.
  - intros ->. reflexivity.
Qed.

Lemma POT_left_shift_sign_witness :
  0 < 4
  /\ exists y,
       SaturatingRoundingMultiplyByPOT 4 v_extremes = Some y
       /\ lane L3 y < 0.
Proof.
  assert (He : 0 < 4) by reflexivity.
  split; [exact He|].
  destruct (POT_left_shift_sign 4 v_extremes L3 He) as [y [Hy [_ [H _]]]].
  exists y. split; [exact Hy|]. apply H. reflexivity.
Defined.

(** X23. The rounding right shift by [n] is the truncating (flooring)
    shift plus the last bit shifted out, bit [n - 1] of the operand. *)
Theorem POT_right_shift_adds_last_bit
  (e : Z) (x : int32x4_t) (i : lane_index) :
  e < 0 -> wf x ->
  exists y,
    SaturatingRoundingMultiplyByPOT e x = Some y
    /\ lane i y
       = Z.shiftr (lane i x) (- e) + Z.b2z (Z.testbit (lane i x) (- e - 1)).
Proof.
  intros He Hx. eexists. split; [apply POT_negative; assumption|].
  rewrite lane_vrshrq_n_s32 by (assumption || lia).
  set (n := - e). assert (Hn : 0 < n) by (unfold n; lia).
  replace (- e - 1) with (n - 1) by (unfold n; lia).
  set (v := lane i x).
  rewrite Z.testbit_spec' by lia. rewrite Z.shiftr_div_pow2 by lia.
  rewrite (pow2_split n Hn).
  pose proof (pow2_pos (n - 1) ltac:(lia)) as Hp.
  set (h := 2 ^ (n - 1)) in *.
  rewrite <- round_half_up_even by assumption.
  rewrite (Z.mul_comm 2 h), <- !Z.div_div by lia.
  replace (v + h) with (v + 1 * h) by lia. rewrite Z.div_add by lia.
  set (u := v / h).
  pose proof (Z.div_mod u 2 ltac:(lia)).
  pose proof (Z.mod_pos_bound u 2 ltac:(lia)).
  pose proof (Z.mul_div_le (u + 1) 2 ltac:(lia)).
  pose proof (Z.mul_succ_div_gt (u + 1) 2 ltac:(lia)).
  lia.
Qed.

Lemma POT_right_shift_adds_last_bit_witness :
  -2 < 0 /\ wf v_extremes
  /\ exists y,
       SaturatingRoundingMultiplyByPOT (-2) v_extremes = Some y
       /\ lane L3 y = Z.shiftr (-7) 2 + Z.b2z (Z.testbit (-7) 1).
Proof.
  assert (He : -2 < 0) by reflexivity.
  assert (Hx : wf v_extremes) by (apply wfb_spec; reflexivity).
  split; [exact He|]. split; [exact Hx|].
  exact (POT_right_shift_adds_last_bit (-2) v_extremes L3 He Hx).
Defined.

(** X24. Shifting right and then left by the same amount [n] returns, per
    lane, a value within [2^(n-1)] of the original, also when the left
    shift saturates. *)
Theorem POT_right_then_left (n : Z) (x : int32x4_t) (i : lane_index) :
  0 < n -> wf x ->
  exists y z,
    SaturatingRoundingMultiplyByPOT (- n) x = Some y
    /\ SaturatingRoundingMultiplyByPOT n y = Some z
    /\ Z.abs (lane i z - lane i x) <= 2 ^ (n - 1).
Proof.
  intros Hn Hx. eexists. eexists.
  split; [apply POT_negative; lia|].
  split; [apply POT_positive; assumption|].
  rewrite lane_vqshlq_n_s32 by lia.
  rewrite lane_vrshrq_n_s32 by (assumption || lia).
  rewrite Z.opp_involutive.
  pose proof (round_half_up_nearest (lane i x) (2 ^ n) (pow2_pos n ltac:(lia)))
    as Hr.
  specialize (Hx i).
  set (r := Scalar.round_half_up (lane i x) (2 ^ n)) in *.
  rewrite (pow2_split n Hn) in *.
  pose proof (pow2_pos (n - 1) ltac:(lia)) as Hp.
  set (h := 2 ^ (n - 1)) in *.
  unfold nearest_ties_up, Scalar.clamp, Int32.in_range, Int32.min, Int32.max
    in *.
  assert (Hd : - h <= r * (2 * h) - lane i x <= h) by nia.
  lia.
Qed.

Lemma POT_right_then_left_witness :
  0 < 1 /\ wf v_extremes
  /\ exists y z,
       SaturatingRoundingMultiplyByPOT (- 1) v_extremes = Some y
       /\ SaturatingRoundingMultiplyByPOT 1 y = Some z
       /\ Z.abs (lane L1 z - lane L1 v_extremes) <= 2 ^ (1 - 1).
Proof.
  assert (Hn : 0 < 1) by reflexivity.
  assert (Hx : wf v_extremes) by (apply wfb_spec; reflexivity).
  split; [exact Hn|]. split; [exact Hx|].
  exact (POT_right_then_left 1 v_extremes L1 Hn Hx).
Defined.

(** X25. The rounding right shift by [n] of a signed 32-bit lane lies
    between [-2^(31-n)] and [2^(31-n)] for [n] up to 31, the upper bound
    being one more than a truncating shift can reach, and it is zero for
    [n = 32] and beyond. *)
Theorem POT_right_shift_bounds (e : Z) (x : int32x4_t) (i : lane_index) :
  e < 0 -> wf x ->
  exists y,
    SaturatingRoundingMultiplyByPOT e x = Some y
    /\ (- 31 <= e -> - 2 ^ (31 + e) <= lane i y <= 2 ^ (31 + e))
    /\ (e <= - 32 -> lane i y = 0).
Proof.
  intros He Hx. eexists. split; [apply POT_negative; assumption|].
  rewrite lane_vrshrq_n_s32 by (assumption || lia).
  pose proof (round_half_up_nearest (lane i x) (2 ^ (- e))
                (pow2_pos (- e) ltac:(lia))) as Hr.
  specialize (Hx i).
  set (r := Scalar.round_half_up (lane i x) (2 ^ (- e))) in *.
  unfold nearest_ties_up, Int32.in_range, Int32.min, Int32.max in *.
  pose proof (pow2_pos (- e) ltac:(lia)) as Hd.
  split.
  - intros Hlo. pose proof (pow2_pos (31 + e) ltac:(lia)) as Hm.
    assert (E : 2 ^ 31 = 2 ^ (31 + e) * 2 ^ (- e)).
    { rewrite <- Z.pow_add_r by lia. f_equal. lia. }
    set (d := 2 ^ (- e)) in *. set (m := 2 ^ (31 + e)) in *.
    rewrite E in Hx. clearbody d m r. nia.
  - intros Hhi.
    assert (E : 2 ^ (- e) = 2 ^ 32 * 2 ^ (- e - 32)).
    { rewrite <- Z.pow_add_r by lia. f_equal. lia. }
    pose proof (pow2_pos (- e - 32) ltac:(lia)) as Hk.
    set (k := 2 ^ (- e - 32)) in *. rewrite E in Hr, Hd. clearbody k r.
    assert (2 ^ 32 <= 2 ^ 32 * k) by nia.
    nia.
Qed.

Lemma POT_right_shift_bounds_witness :
  -31 < 0 /\ wf v_extremes
  /\ exists y,
       SaturatingRoundingMultiplyByPOT (-31) v_extremes = Some y
       /\ - 2 ^ (31 + -31) <= lane L1 y <= 2 ^ (31 + -31).
Proof.
  assert (He : -31 < 0) by reflexivity.
  assert (Hx : wf v_extremes) by (apply wfb_spec; reflexivity).
  split; [exact He|]. split; [exact Hx|].
  destruct (POT_right_shift_bounds (-31) v_extremes L1 He Hx) as [y [Hy [H _]]].
  exists y. split; [exact Hy|]. apply H. discriminate.
Defined.

(** X26. For every non-zero exponent the operation is monotone per lane:
    a larger lane never gives a smaller result, whether the shift
    saturates or rounds. *)
Theorem POT_monotone (e : Z) (x x' : int32x4_t) (i : lane_index) :
  e <> 0 -> wf x -> wf x' -> lane i x <= lane i x' ->
  exists y y',
    SaturatingRoundingMultiplyByPOT e x = Some y
    /\ SaturatingRoundingMultiplyByPOT e x' = Some y'
    /\ lane i y <= lane i y'.
Proof.
  intros He Hx Hx' Hle. destruct (Z_lt_le_dec 0 e) as [Hp | Hn].
  - eexists. eexists. split; [apply POT_positive; assumption|].
    split; [apply POT_positive; assumption|].
    rewrite !lane_vqshlq_n_s32 by lia.
    pose proof (pow2_pos e ltac:(lia)).
    assert (lane i x * 2 ^ e <= lane i x' * 2 ^ e) by nia.
    unfold Scalar.clamp. lia.
  - eexists. eexists. split; [apply POT_negative; lia|].
    split; [apply POT_negative; lia|].
    rewrite !lane_vrshrq_n_s32 by (assumption || lia).
    pose proof (pow2_pos (- e) ltac:(lia)).
    unfold Scalar.round_half_up. apply Z.div_le_mono; lia.
Qed.

Lemma POT_monotone_witness :
  -3 <> 0 /\ wf v_zero /\ wf v_extremes
  /\ lane L1 v_zero <= lane L1 v_extremes
  /\ exists y y',
       SaturatingRoundingMultiplyByPOT (-3) v_zero = Some y
       /\ SaturatingRoundingMultiplyByPOT (-3) v_extremes = Some y'
       /\ lane L1 y <= lane L1 y'.
Proof.
  assert (He : -3 <> 0) by discriminate.
  assert (Hx : wf v_zero) by (apply wfb_spec; reflexivity).
  assert (Hx' : wf v_extremes) by (apply wfb_spec; reflexivity).
  assert (Hle : lane L1 v_zero <= lane L1 v_extremes) by discriminate.
  split; [exact He|]. split; [exact Hx|]. split; [exact Hx'|].
  split; [exact Hle|].
  exact (POT_monotone (-3) v_zero v_extremes L1 He Hx Hx' Hle).
Defined.

End PowerOfTwoProperties.
